(** * EmojiCut: the sticker segmentation and extraction pipeline

    A shallow embedding of [services/imageProcessor.ts] (background
    predicate, component scan, rectangle merger, sticker extractor) and of
    the naming call of [services/geminiService.ts], with the properties the
    specification states about them.

    Conventions of the embedding.
    - JavaScript numbers that hold pixel coordinates, channel values and
      thresholds are integers, modelled by [Z].
    - A typed array ([Uint8ClampedArray], [Uint8Array]) is a [list]; reading
      outside it yields [undefined], modelled by [None]; writing outside it
      does nothing.  A [Uint8Array] that only ever holds 0 and 1 is a
      [list bool].
    - A JavaScript array used as a stack ([push]/[pop]) is a [list] whose
      head is the top of the stack.
    - A [while] loop is a function with a fuel argument that returns [None]
      when the fuel runs out; the facts below show that the fuel supplied by
      each caller is never exhausted. *)

From Stdlib Require Import Ascii String.
From stdpp Require Import gmap list strings pretty.

(** ** Arrays and loops *)

Section Arrays.
Context {A : Type}.

(** [arr[i]] *)
Definition arrGet (arr : list A) (i : Z) : option A :=
  if decide (0 ≤ i)%Z then arr !! Z.to_nat i else None.

(** [arr[i] = v] on a typed array *)
Definition arrSet (arr : list A) (i : Z) (v : A) : list A :=
  if decide (0 ≤ i)%Z then <[Z.to_nat i := v]> arr else arr.
End Arrays.

(** Truthiness of a [Uint8Array] cell. *)
Definition truthy (c : option bool) : bool :=
  match c with Some true => true | _ => false end.

(** The integers [lo, lo+1, ..., hi-1] of [for (let v = lo; v < hi; v++)]. *)
Definition zrange (lo hi : Z) : list Z := seqZ lo (hi - lo).

(** A [for] loop whose body may fail to return. *)
Fixpoint foldlM {St B : Type} (f : St → B → option St) (s : St) (l : list B)
    : option St :=
  match l with
  | [] => Some s
  | b :: l' => match f s b with Some s' => foldlM f s' l' | None => None end
  end.

(** ** Rectangles and the background predicate *)

Record Rect := mkRect { minX : Z; maxX : Z; minY : Z; maxY : Z }.

Section Background.
Local Open Scope Z_scope.

(** [v < n] and [v > n] where [v] may be [undefined]. *)
Definition jsLt (v : option Z) (n : Z) : bool :=
  match v with Some x => x <? n | None => false end.
Definition jsGt (v : option Z) (n : Z) : bool :=
  match v with Some x => n <? x | None => false end.

Definition isBackground (r g b a : option Z) : bool :=
  if jsLt a 20 then true
  else jsGt r 240 && jsGt g 240 && jsGt b 240.

(** [isBackground(px[idx], px[idx + 1], px[idx + 2], px[idx + 3])] *)
Definition isBackgroundAt (px : list Z) (idx : Z) : bool :=
  isBackground (arrGet px idx) (arrGet px (idx + 1))
               (arrGet px (idx + 2)) (arrGet px (idx + 3)).
End Background.

(** ** mergeRects *)

Section Merger.
Local Open Scope Z_scope.

Definition xDist (current other : Rect) : Z :=
  Z.max 0 (Z.max (minX current - maxX other) (minX other - maxX current)).
Definition yDist (current other : Rect) : Z :=
  Z.max 0 (Z.max (minY current - maxY other) (minY other - maxY current)).

(** [xDist < distanceThreshold && yDist < distanceThreshold] *)
Definition isClose (tau : Z) (current other : Rect) : bool :=
  (xDist current other <? tau) && (yDist current other <? tau).

(** The four assignments to [current] on a match. *)
Definition absorb (current other : Rect) : Rect :=
  {| minX := Z.min (minX current) (minX other);
     minY := Z.min (minY current) (minY other);
     maxX := Z.max (maxX current) (maxX other);
     maxY := Z.max (maxY current) (maxY other) |}.

(** Body of [for (let j = i + 1; ...)]; the state is
    [(current, visited, changed)]. *)
Definition innerStep (merged : list Rect) (tau : Z)
    (st : Rect * gset nat * bool) (j : nat) : Rect * gset nat * bool :=
  let '(current, visited, changed) := st in
  if decide (j ∈ visited) then st
  else match merged !! j with
       | Some other =>
           if isClose tau current other
           then (absorb current other, {[j]} ∪ visited, true)
           else st
       | None => st
       end.

Definition innerLoop (merged : list Rect) (tau : Z) (i : nat)
    (st : Rect * gset nat * bool) : Rect * gset nat * bool :=
  foldl (innerStep merged tau) st (seq (S i) (length merged - S i)).

(** Body of [for (let i = 0; ...)]; the state is
    [(newMerged, visited, changed)].  [current] is a copy of [merged[i]],
    so [merged] itself is never written. *)
Definition outerStep (merged : list Rect) (tau : Z)
    (st : list Rect * gset nat * bool) (i : nat)
    : list Rect * gset nat * bool :=
  let '(newMerged, visited, changed) := st in
  if decide (i ∈ visited) then st
  else match merged !! i with
       | Some r =>
           let '(current, visited', changed') :=
             innerLoop merged tau i (r, {[i]} ∪ visited, changed) in
           (newMerged ++ [current], visited', changed')
       | None => st
       end.

(** One iteration of [while (changed)]: the new list and the flag. *)
Definition mergePass (merged : list Rect) (tau : Z) : list Rect * bool :=
  let '(newMerged, _, changed) :=
    foldl (outerStep merged tau) ([], ∅, false) (seq 0 (length merged)) in
  (newMerged, changed).

Fixpoint mergeLoop (fuel : nat) (tau : Z) (merged : list Rect)
    : option (list Rect) :=
  match fuel with
  | O => None
  | S fuel' =>
      let '(newMerged, changed) := mergePass merged tau in
      if changed then mergeLoop fuel' tau newMerged else Some newMerged
  end.

Definition mergeRects (rects : list Rect) (distanceThreshold : Z)
    : option (list Rect) :=
  mergeLoop (S (length rects)) distanceThreshold rects.

(** The invariant of the data model, and containment of rectangles. *)
Definition validRect (r : Rect) : Prop :=
  minX r ≤ maxX r ∧ minY r ≤ maxY r.
Definition contains (outer inner : Rect) : Prop :=
  minX outer ≤ minX inner ∧ maxX inner ≤ maxX outer ∧
  minY outer ≤ minY inner ∧ maxY inner ≤ maxY outer.

(** Two regions with [g] empty pixel columns and [g] empty pixel rows
    between them (inclusive bounds, either order on each axis). *)
Definition separatedBy (g : Z) (a b : Rect) : Prop :=
  (minX b - maxX a - 1 = g ∨ minX a - maxX b - 1 = g) ∧
  (minY b - maxY a - 1 = g ∨ minY a - maxY b - 1 = g).
End Merger.

(** ** The component scan of processStickerSheet *)

(** 4-connectivity: [(x', y')] is left, right, above or below [(x, y)]. *)
Definition adjacent4 (x y x' y' : Z) : Prop :=
  ((y' = y ∧ (x' = x - 1 ∨ x' = x + 1)) ∨ (x' = x ∧ (y' = y - 1 ∨ y' = y + 1)))%Z.

Section Detector.
Local Open Scope Z_scope.
Variables (width height : Z) (data : list Z).

Definition getIdx (x y : Z) : Z := (y * width + x) * 4.

(** State of one flood fill: the stack, the shared [visited] array, the
    running bounds and the pixel count. *)
Record Fill := mkFill {
  f_stack : list (Z * Z);
  f_visited : list bool;
  f_minX : Z; f_maxX : Z; f_minY : Z; f_maxY : Z;
  f_count : Z
}.

(** Body of [for (const [nx, ny] of neighbors)]. *)
Definition visitNeighbor (st : list (Z * Z) * list bool) (n : Z * Z)
    : list (Z * Z) * list bool :=
  let '(stack, visited) := st in
  let '(nx, ny) := n in
  if (0 <=? nx) && (nx <? width) && (0 <=? ny) && (ny <? height) then
    let nVisitIdx := ny * width + nx in
    match arrGet visited nVisitIdx with
    | Some false =>
        if negb (isBackgroundAt data (getIdx nx ny))
        then ((nx, ny) :: stack, arrSet visited nVisitIdx true)
        else st
    | _ => st
    end
  else st.

(** Body of [while (stack.length > 0)] after [stack.pop()]. *)
Definition fillStep (cx cy : Z) (rest : list (Z * Z)) (f : Fill) : Fill :=
  let minX' := if cx <? f_minX f then cx else f_minX f in
  let maxX' := if f_maxX f <? cx then cx else f_maxX f in
  let minY' := if cy <? f_minY f then cy else f_minY f in
  let maxY' := if f_maxY f <? cy then cy else f_maxY f in
  let neighbors := [(cx + 1, cy); (cx - 1, cy); (cx, cy + 1); (cx, cy - 1)] in
  let '(stack', visited') :=
    foldl visitNeighbor (rest, f_visited f) neighbors in
  mkFill stack' visited' minX' maxX' minY' maxY' (f_count f + 1).

Fixpoint fillLoop (fuel : nat) (f : Fill) : option Fill :=
  match fuel with
  | O => None
  | S fuel' =>
      match f_stack f with
      | [] => Some f
      | (cx, cy) :: rest => fillLoop fuel' (fillStep cx cy rest f)
      end
  end.

(** [count > 50 && w > 5 && h > 5] with [w = maxX - minX], [h = maxY - minY]. *)
Definition passesThresholds (f : Fill) : bool :=
  let w := f_maxX f - f_minX f in
  let h := f_maxY f - f_minY f in
  (50 <? f_count f) && (5 <? w) && (5 <? h).

Definition rectOf (f : Fill) : Rect :=
  mkRect (f_minX f) (f_maxX f) (f_minY f) (f_maxY f).

(** The flood fill started at an unvisited non-background pixel. *)
Definition fillFrom (visited : list bool) (x y : Z) : option Fill :=
  fillLoop (length visited + 2)
    (mkFill [(x, y)] (arrSet visited (y * width + x) true) x x y y 0).

(** Body of the two nested scan loops; the state is [(visited, rawRects)]. *)
Definition scanPixel (y : Z) (st : list bool * list Rect) (x : Z)
    : option (list bool * list Rect) :=
  let '(visited, rawRects) := st in
  let visitIdx := y * width + x in
  if truthy (arrGet visited visitIdx) then Some st
  else if negb (isBackgroundAt data (getIdx x y)) then
    match fillFrom visited x y with
    | Some f =>
        Some (f_visited f,
              if passesThresholds f then rawRects ++ [rectOf f] else rawRects)
    | None => None
    end
  else Some st.

Definition scanRow (st : list bool * list Rect) (y : Z)
    : option (list bool * list Rect) :=
  foldlM (scanPixel y) st (zrange 0 width).

(** [rawRects] at the end of the scan. *)
Definition scanComponents : option (list Rect) :=
  snd <$> foldlM scanRow
            (replicate (Z.to_nat (width * height)) false, [])
            (zrange 0 height).

(** Connected components, said without the scan: a foreground pixel is a
    pixel of the sheet that is not background; two foreground pixels are
    connected when a path of 4-adjacent foreground pixels joins them; the
    component of a pixel lists, once each, the pixels connected to it; a
    bounding box of a set of pixels touches it on all four sides. *)
Definition inSheet (x y : Z) : Prop := 0 ≤ x < width ∧ 0 ≤ y < height.
Definition foreground (x y : Z) : Prop :=
  inSheet x y ∧ isBackgroundAt data (getIdx x y) = false.

Inductive connected : Z * Z → Z * Z → Prop :=
| connected_refl x y : foreground x y → connected (x, y) (x, y)
| connected_step p x y x' y' :
    connected p (x, y) → adjacent4 x y x' y' → foreground x' y' →
    connected p (x', y').

Definition component (seed : Z * Z) (l : list (Z * Z)) : Prop :=
  NoDup l ∧ ∀ q, q ∈ l ↔ connected seed q.

Definition boundingBox (r : Rect) (l : list (Z * Z)) : Prop :=
  (∀ x y, (x, y) ∈ l → minX r ≤ x ≤ maxX r ∧ minY r ≤ y ≤ maxY r) ∧
  (∃ y, (minX r, y) ∈ l) ∧ (∃ y, (maxX r, y) ∈ l) ∧
  (∃ x, (x, minY r) ∈ l) ∧ (∃ x, (x, maxY r) ∈ l).
End Detector.

(** ** extractStickerFromRect *)

(** What [drawImage] reads from: an image or canvas with its RGBA samples,
    row-major, four cells per pixel. *)
Record Drawable := mkDrawable {
  d_width : Z;
  d_height : Z;
  d_pixels : list Z
}.

Module StickerSegment.
Record t := mk {
  id : string;
  dataUrl : string;
  originalX : Z;
  originalY : Z;
  width : Z;
  height : Z;
  name : string;
  isNaming : bool
}.
End StickerSegment.

Section Crop.
Local Open Scope Z_scope.

Definition padding : Z := 2.
Definition strokeWidth : Z := 6.

Definition finalX (rect : Rect) : Z := Z.max 0 (minX rect - padding).
Definition finalY (rect : Rect) : Z := Z.max 0 (minY rect - padding).
Definition finalW (source : Drawable) (rect : Rect) : Z :=
  Z.min (d_width source - finalX rect) ((maxX rect - minX rect) + padding * 2).
Definition finalH (source : Drawable) (rect : Rect) : Z :=
  Z.min (d_height source - finalY rect) ((maxY rect - minY rect) + padding * 2).

(** [drawImage(source, x, y, w, h, 0, 0, w, h)] onto a fresh canvas followed
    by [getImageData(0, 0, w, h)]: the samples of the region, with
    transparent black where the source has none. *)
Definition sample (source : Drawable) (x y c : Z) : Z :=
  default 0 (arrGet (d_pixels source) ((y * d_width source + x) * 4 + c)).
Definition cropPixels (source : Drawable) (x y w h : Z) : list Z :=
  row ← zrange y (y + h);
  col ← zrange x (x + w);
  [sample source col row 0; sample source col row 1;
   sample source col row 2; sample source col row 3].
End Crop.

Section ExteriorFill.
Local Open Scope Z_scope.
Variables (finalW finalH : Z) (segPixels : list Z).

(** The two seeding loops; every [push] puts its arguments on the stack
    from left to right. *)
Definition edgeSeeds : list (Z * Z) :=
  let rows := x ← zrange 0 finalW; [(x, 0); (x, finalH - 1)] in
  let cols := y ← zrange 1 (finalH - 1); [(0, y); (finalW - 1, y)] in
  reverse (rows ++ cols).

(** The four guarded pushes of the neighbours. *)
Definition pushNeighbors (cx cy : Z) (stack : list (Z * Z)) : list (Z * Z) :=
  let stack1 := if 0 <? cx then (cx - 1, cy) :: stack else stack in
  let stack2 := if cx <? finalW - 1 then (cx + 1, cy) :: stack1 else stack1 in
  let stack3 := if 0 <? cy then (cx, cy - 1) :: stack2 else stack2 in
  if cy <? finalH - 1 then (cx, cy + 1) :: stack3 else stack3.

(** Body of [while (stack.length > 0)] after [stack.pop()]. *)
Definition floodVisit (cx cy : Z) (stack : list (Z * Z)) (isExterior : list bool)
    : list (Z * Z) * list bool :=
  let idx := (cy * finalW + cx) * 4 in
  let visitIdx := cy * finalW + cx in
  if negb (truthy (arrGet isExterior visitIdx)) && isBackgroundAt segPixels idx
  then (pushNeighbors cx cy stack, arrSet isExterior visitIdx true)
  else (stack, isExterior).

Fixpoint floodFill (fuel : nat) (stack : list (Z * Z)) (isExterior : list bool)
    : option (list bool) :=
  match fuel with
  | O => None
  | S fuel' =>
      match stack with
      | [] => Some isExterior
      | (cx, cy) :: rest =>
          let '(stack', isExterior') := floodVisit cx cy rest isExterior in
          floodFill fuel' stack' isExterior'
      end
  end.

(** [isExterior] after the flood fill. *)
Definition exteriorMask : option (list bool) :=
  let isExterior := replicate (Z.to_nat (finalW * finalH)) false in
  let stack := edgeSeeds in
  floodFill (5 * length isExterior + length stack + 1) stack isExterior.

(** [for (let i = 0; i < finalW * finalH; i++)
      if (isExterior[i]) segPixels[i * 4 + 3] = 0] *)
Definition clearExterior (isExterior : list bool) (px : list Z) : list Z :=
  foldl (λ p i, if truthy (arrGet isExterior i) then arrSet p (i * 4 + 3) 0 else p)
        px (zrange 0 (finalW * finalH)).

(** [segPixels] as handed to [putImageData]. *)
Definition removeBackground : option (list Z) :=
  isExterior ← exteriorMask;
  Some (clearExterior isExterior segPixels).

(** The exterior of the crop, said without the stack: a background pixel
    on the border of the crop, or a background pixel 4-adjacent to an
    exterior pixel. *)
Definition inCrop (x y : Z) : Prop := 0 ≤ x < finalW ∧ 0 ≤ y < finalH.
Definition onBorder (x y : Z) : Prop :=
  x = 0 ∨ x = finalW - 1 ∨ y = 0 ∨ y = finalH - 1.
Definition bgPixel (x y : Z) : Prop :=
  isBackgroundAt segPixels ((y * finalW + x) * 4) = true.

Inductive exterior : Z → Z → Prop :=
| exterior_border x y :
    inCrop x y → onBorder x y → bgPixel x y → exterior x y
| exterior_step x y x' y' :
    exterior x y → adjacent4 x y x' y' → inCrop x' y' → bgPixel x' y' →
    exterior x' y'.
End ExteriorFill.

Section Extractor.
Local Open Scope Z_scope.

(** What the browser decides: whether each of the three [getContext('2d')]
    calls yields a context, the identifier [generateId()] produces, and the
    PNG payload of the final canvas for a given cutout (silhouette, 24
    radial stamps, centre stamp, composite, [toDataURL]); the stamping uses
    floating-point offsets and the renderer's smoothing, which are not
    modelled. *)
Variables (segCtxOk sCtxOk fCtxOk : bool).
Variable generateId : string.
Variable renderDataUrl : Z → Z → list Z → string.

(** The result and the sizes of the canvases created on the way. *)
Definition extractStickerFromRect
    (source : Drawable) (rect : Rect) (defaultName : option string)
    : option (option StickerSegment.t * list (Z * Z)) :=
  let defaultName := default "sticker"%string defaultName in
  let fX := finalX rect in
  let fY := finalY rect in
  let fW := finalW source rect in
  let fH := finalH source rect in
  if (fW <=? 0) || (fH <=? 0) then Some (None, [])
  else
    let segCanvas := (fW, fH) in
    if negb segCtxOk then Some (None, [segCanvas])
    else
      let segPixels := cropPixels source fX fY fW fH in
      match removeBackground fW fH segPixels with
      | None => None
      | Some cutout =>
          let silhouetteCanvas := (fW, fH) in
          if negb sCtxOk then Some (None, [segCanvas; silhouetteCanvas])
          else
            let finalCanvas := (fW + strokeWidth * 2, fH + strokeWidth * 2) in
            let created := [segCanvas; silhouetteCanvas; finalCanvas] in
            if negb fCtxOk then Some (None, created)
            else
              Some (Some (StickerSegment.mk
                            generateId
                            (renderDataUrl fW fH cutout)
                            fX fY
                            (fst finalCanvas) (snd finalCanvas)
                            defaultName
                            false),
                    created)
      end.
End Extractor.

(** ** generateStickerName *)

(** Values [JSON.parse] can produce, and [undefined].  Numbers are taken
    integer-valued; an object is the list of its members. *)
#[warnings="-register-all"]
Inductive JSValue :=
| JUndefined
| JNull
| JBool (b : bool)
| JNum (n : Z)
| JStr (s : string)
| JArr (items : list JSValue)
| JObj (members : list (string * JSValue)).

Inductive Completion :=
| Returns (v : JSValue)
| Throws (error : string).

(** What [ai.models.generateContent] does: throw, or give a response whose
    [text] is a string or [undefined]. *)
Inductive CallResult :=
| CallThrows (error : string)
| CallResponds (text : option string).

(** Evaluating [process.env.API_KEY] or
    [localStorage.getItem('gemini_api_key')]: the value read, or the
    exception the read throws ([process] need not exist in a browser;
    access to the storage can be denied). *)
Inductive Lookup :=
| LookupThrows (error : string)
| LookupGives (value : option string).

Section Naming.
(** [process.env.API_KEY] and [localStorage.getItem('gemini_api_key')]. *)
Variables (envKey storedKey : option string).
(** The two reads as [generateStickerName] meets them. *)
Variables (envRead storedRead : Lookup).
(** The remote call, as a function of the image payload sent. *)
Variable generateContent : option string → CallResult.
(** [JSON.parse]; [None] when it throws a [SyntaxError]. *)
Variable JSON_parse : string → option JSValue.

Definition nonEmpty (k : option string) : option string :=
  match k with
  | Some s => if decide (s = ""%string) then None else Some s
  | None => None
  end.

(** [passedKey || process.env.API_KEY || localStorage...]; the client is
    represented by its key. *)
Definition getAiClient (passedKey : option string) : option string :=
  match nonEmpty passedKey with
  | Some k => Some k
  | None => match nonEmpty envKey with
            | Some k => Some k
            | None => nonEmpty storedKey
            end
  end.

(** The call [getAiClient(userApiKey)] with its reads: [||] evaluates its
    operands from left to right and stops at the first truthy one, so a
    read is made only when everything before it was falsy.  [inl e] when
    a read throws [e]. *)
Definition evalGetAiClient (passedKey : option string) : string + option string :=
  match nonEmpty passedKey with
  | Some k => inr (Some k)
  | None =>
      match envRead with
      | LookupThrows error => inl error
      | LookupGives env =>
          match nonEmpty env with
          | Some k => inr (Some k)
          | None =>
              match storedRead with
              | LookupThrows error => inl error
              | LookupGives stored => inr (nonEmpty stored)
              end
          end
      end
  end.

(** [base64Image.split(',')[1]] *)
Fixpoint beforeComma (s : string) : string :=
  match s with
  | EmptyString => EmptyString
  | String c s' => if decide (c = ","%char) then EmptyString
                   else String c (beforeComma s')
  end.
Fixpoint afterComma (s : string) : option string :=
  match s with
  | EmptyString => None
  | String c s' => if decide (c = ","%char) then Some s' else afterComma s'
  end.
Definition secondField (s : string) : option string :=
  beforeComma <$> afterComma s.

Definition jsTruthy (v : JSValue) : bool :=
  match v with
  | JUndefined | JNull => false
  | JBool b => b
  | JNum n => negb (n =? 0)%Z
  | JStr s => if decide (s = ""%string) then false else true
  | JArr _ | JObj _ => true
  end.

Fixpoint member (key : string) (members : list (string * JSValue)) : JSValue :=
  match members with
  | [] => JUndefined
  | (k, v) :: rest => if decide (k = key) then v else member key rest
  end.

(** [data.filename]; reading a property of [null] or [undefined] throws. *)
Definition getFilename (data : JSValue) : Completion :=
  match data with
  | JUndefined | JNull => Throws "TypeError"
  | JObj members => Returns (member "filename" members)
  | _ => Returns JUndefined
  end.

(** The body of the [try] block. *)
Definition namingAttempt (base64Image : string) : Completion :=
  let cleanBase64 := secondField base64Image in
  match generateContent cleanBase64 with
  | CallThrows e => Throws e
  | CallResponds text =>
      match nonEmpty text with
      | Some t =>
          match JSON_parse t with
          | None => Throws "SyntaxError"
          | Some data =>
              match getFilename data with
              | Throws e => Throws e
              | Returns filename =>
                  Returns (if jsTruthy filename then filename else JStr "sticker")
              end
          end
      | None => Returns (JStr "sticker")
      end
  end.

(** [getAiClient] is called before the [try] block: what it throws
    rejects the promise; what the [try] block throws is caught. *)
Definition generateStickerName (base64Image : string) (userApiKey : option string)
    : Completion :=
  match evalGetAiClient userApiKey with
  | inl error => Throws error
  | inr None => Returns (JStr "sticker")
  | inr (Some ai) =>
      match namingAttempt base64Image with
      | Throws error => Returns (JStr "sticker")
      | Returns v => Returns v
      end
  end.
End Naming.

(** ** processStickerSheet, the whole pipeline *)

(** How a promise settles. *)
Inductive Settled (A : Type) :=
| Resolved (value : A)
| Rejected (error : string).
Arguments Resolved {A} value.
Arguments Rejected {A} error.

(** [imageData.data] of the sheet canvas after [drawImage(image, 0, 0)]. *)
Definition sheetData (image : Drawable) : list Z :=
  cropPixels image 0 0 (d_width image) (d_height image).

Section Pipeline.
(** What the browser decides: whether the sheet canvas yields a context,
    and, for the extraction of the rectangle at each index, whether its
    three canvases yield contexts and which identifier is generated. *)
Variable ctxOk : bool.
Variables (segCtxOk sCtxOk fCtxOk : nat → bool).
Variable generateId : nat → string.
Variable renderDataUrl : Z → Z → list Z → string.

(** Body of [for (let i = 0; i < mergedRects.length; i++)]. *)
Definition extractStep (canvas : Drawable)
    (finalSegments : list StickerSegment.t) (ir : nat * Rect)
    : option (list StickerSegment.t) :=
  let '(i, rect) := ir in
  match extractStickerFromRect (segCtxOk i) (sCtxOk i) (fCtxOk i)
          (generateId i) renderDataUrl canvas rect
          (Some ("sticker_" +:+ pretty (i + 1)%nat)) with
  | Some (Some segment, _) => Some (finalSegments ++ [segment])
  | Some (None, _) => Some finalSegments
  | None => None
  end.

(** The messages passed to [onProgress] and the way the promise settles.
    [getImageData] throws an [IndexSizeError] when the canvas has width or
    height 0. *)
Definition processStickerSheet (image : Drawable)
    : option (list string * Settled (list StickerSegment.t)) :=
  if negb ctxOk then Some ([], Rejected "Could not get canvas context")
  else if (d_width image <=? 0)%Z || (d_height image <=? 0)%Z
  then Some ([], Rejected "IndexSizeError")
  else
    let width := d_width image in
    let height := d_height image in
    let data := sheetData image in
    let canvas := mkDrawable width height data in
    rawRects ← scanComponents width height data;
    mergedRects ← mergeRects rawRects 15;
    finalSegments ← foldlM (extractStep canvas) [] (imap pair mergedRects);
    Some (["Scanning image for content...";
           "Detected " +:+ pretty (length rawRects) +:+ " components. Grouping...";
           "Identified " +:+ pretty (length mergedRects) +:+ " stickers. Extracting..."],
          Resolved finalSegments).
End Pipeline.

(** ** handleDownloadAll: the names of the archive entries *)

Section Archive.
(** [while (usedNames.has(fileName)) { fileName = `${seg.name}_${counter}`;
    counter++; }] *)
Fixpoint freeName (fuel : nat) (usedNames : gset string)
    (name fileName : string) (counter : nat) : option string :=
  match fuel with
  | O => None
  | S fuel' =>
      if decide (fileName ∈ usedNames)
      then freeName fuel' usedNames name (name +:+ "_" +:+ pretty counter) (S counter)
      else Some fileName
  end.

(** Body of [segments.forEach]; the state is [usedNames] and the calls
    [zip.file(name, data)] made so far. *)
Definition addFile (st : gset string * list (string * option string))
    (seg : StickerSegment.t) : option (gset string * list (string * option string)) :=
  let '(usedNames, files) := st in
  fileName ← freeName (S (size usedNames)) usedNames
                      (StickerSegment.name seg) (StickerSegment.name seg) 1;
  let base64Data := secondField (StickerSegment.dataUrl seg) in
  Some ({[fileName]} ∪ usedNames, files ++ [(fileName +:+ ".png", base64Data)]).

Definition zipFiles (segments : list StickerSegment.t)
    : option (list (string * option string)) :=
  snd <$> foldlM addFile (∅, []) segments.
End Archive.

(** ** runAiNaming: the batches *)

Section Batches.
Context {A : Type}.

Definition batchSize : nat := 3.

(** [for (let i = 0; i < itemsToName.length; i += batchSize)
      processBatch(itemsToName.slice(i, i + batchSize))] *)
Fixpoint batchesFrom (fuel : nat) (i : nat) (itemsToName : list A)
    : option (list (list A)) :=
  match fuel with
  | O => None
  | S fuel' =>
      if decide (i < length itemsToName)
      then (take batchSize (drop i itemsToName) ::.) <$>
             batchesFrom fuel' (i + batchSize) itemsToName
      else Some []
  end.

Definition batches (itemsToName : list A) : option (list (list A)) :=
  batchesFrom (S (length itemsToName)) 0 itemsToName.
End Batches.

(** ** generateStickerSheet *)

(** [part.inlineData]: its [mimeType] and [data], either of which may be
    missing. *)
Record InlineData := mkInlineData {
  mimeType : option string;
  inlineBytes : option string
}.

(** What the image model's [generateContent] does: throw, or give a
    response.  [candidates] is [response.candidates]; each candidate is
    represented by its [content?.parts], each part by its [inlineData]. *)
Inductive SheetCall :=
| SheetThrows (error : string)
| SheetResponds (candidates : option (list (option (list (option InlineData))))).

(** [`data:${mimeType};base64,${data}`] *)
Definition dataUrlOf (mime payload : string) : string :=
  "data:" +:+ mime +:+ ";base64," +:+ payload.

Section Generation.
Variables (envKey storedKey : option string).
(** The remote call, as a function of the image payload and the style
    text that the prompt is built from. *)
Variable generateContent : string → option string → SheetCall.

(** The [for] loop over the parts: the first part with [inlineData]. *)
Fixpoint firstImage (parts : list (option InlineData)) : option string :=
  match parts with
  | [] => None
  | Some inline :: _ =>
      let mime := default "image/png"%string (nonEmpty (mimeType inline)) in
      Some (dataUrlOf mime (default "undefined"%string (inlineBytes inline)))
  | None :: rest => firstImage rest
  end.

(** [response.candidates && response.candidates[0]?.content?.parts] *)
Definition firstParts (candidates : option (list (option (list (option InlineData)))))
    : option (list (option InlineData)) :=
  match candidates with
  | Some (Some parts :: _) => Some parts
  | _ => None
  end.

Definition generateStickerSheet (referenceImage : string)
    (manualStyle userApiKey : option string) : Completion :=
  match getAiClient envKey storedKey userApiKey with
  | None => Throws "API_KEY is not set"
  | Some ai =>
      let cleanBase64 :=
        match secondField referenceImage with
        | Some field => field
        | None => referenceImage
        end in
      match generateContent cleanBase64 manualStyle with
      | SheetThrows error => Throws error
      | SheetResponds candidates =>
          match firstParts candidates ≫= firstImage with
          | Some url => Returns (JStr url)
          | None => Throws "No image returned from generation"
          end
      end
  end.
End Generation.

(** * Invariants, measures and sample inputs *)

Definition b2n (b : bool) : nat := if b then 1%nat else 0%nat.

(** Cells of a [Uint8Array] that are still 0. *)
Fixpoint countFalse (m : list bool) : nat :=
  match m with
  | [] => 0
  | b :: m' => (if b then 0 else 1) + countFalse m'
  end.

(** Cell [(x, y)] of a mask over rows of [W] pixels is set. *)
Definition marked (W : Z) (m : list bool) (x y : Z) : Prop :=
  arrGet m (y * W + x)%Z = Some true.

Section ExteriorInvariants.
Local Open Scope Z_scope.
Variables (W H : Z) (px : list Z).

(** Invariant of the exterior flood fill: marked cells are exterior; every
    stack entry lies in the crop, on its border or next to a marked cell;
    border background cells and background neighbours of marked cells are
    marked or on the stack. *)
Record FloodInv (stack : list (Z * Z)) (m : list bool) : Prop := {
  inv_len : length m = Z.to_nat (W * H);
  inv_stack : ∀ x y, (x, y) ∈ stack →
    inCrop W H x y ∧
    (onBorder W H x y ∨
     ∃ x0 y0, inCrop W H x0 y0 ∧ marked W m x0 y0 ∧ adjacent4 x0 y0 x y);
  inv_sound : ∀ x y, inCrop W H x y → marked W m x y → exterior W H px x y;
  inv_border : ∀ x y, inCrop W H x y → onBorder W H x y → bgPixel W px x y →
    marked W m x y ∨ (x, y) ∈ stack;
  inv_closed : ∀ x y x' y',
    inCrop W H x y → marked W m x y → adjacent4 x y x' y' → inCrop W H x' y' →
    bgPixel W px x' y' → marked W m x' y' ∨ (x', y') ∈ stack
}.
End ExteriorInvariants.

(** Five units per unmarked cell and one per stack entry: every iteration
    of the exterior fill uses up at least one. *)
Definition floodMeasure (stack : list (Z * Z)) (m : list bool) : nat :=
  (5 * countFalse m + length stack)%nat.

(** One unit per unvisited cell and one per stack entry: every iteration of
    a component fill uses up exactly one. *)
Definition fillMeasure (f : Fill) : nat :=
  (countFalse (f_visited f) + length (f_stack f))%nat.

Section DetectorInvariants.
Local Open Scope Z_scope.
Variables (width height : Z) (data : list Z).

Section FillInvariants.
Variables (sx sy : Z) (V0 : list bool).

(** What the stack and [visited] satisfy during the fill started at
    [(sx, sy)] on the array [V0]; [D] lists the pixels popped so far. *)
Record FillCore (D stack : list (Z * Z)) (V : list bool) : Prop := {
  fc_len : length V = Z.to_nat (width * height);
  fc_nodup : NoDup (D ++ stack);
  fc_conn : ∀ x y, (x, y) ∈ D ++ stack →
    connected width height data (sx, sy) (x, y);
  fc_marked : ∀ x y, inSheet width height x y →
    (marked width V x y ↔ marked width V0 x y ∨ (x, y) ∈ D ++ stack)
}.

Record FillInv (D : list (Z * Z)) (f : Fill) : Prop := {
  fi_core : FillCore D (f_stack f) (f_visited f);
  fi_closed : ∀ x y x' y',
    (x, y) ∈ D → adjacent4 x y x' y' → foreground width height data x' y' →
    (x', y') ∈ D ++ f_stack f;
  fi_seed : (sx, sy) ∈ D ++ f_stack f;
  fi_count : f_count f = Z.of_nat (length D);
  fi_bbox : boundingBox (rectOf f) ((sx, sy) :: D)
}.
End FillInvariants.

(** The pixels of a component whose box is wide and high enough to be
    emitted. *)
Definition largeComponent (seed : Z * Z) (l : list (Z * Z)) (r : Rect) : Prop :=
  component width height data seed l ∧ boundingBox r l ∧
  50 < Z.of_nat (length l) ∧ 5 < maxX r - minX r ∧ 5 < maxY r - minY r.

(** Invariant of the scan: [visited] marks whole components of foreground
    pixels, among them every foreground pixel already passed, and
    [rawRects] holds the boxes of the large ones. *)
Record ScanInv (covered : Z → Z → Prop) (V : list bool) (R : list Rect) : Prop := {
  si_len : length V = Z.to_nat (width * height);
  si_sound : ∀ x y, inSheet width height x y → marked width V x y →
    foreground width height data x y;
  si_closed : ∀ x y x' y', marked width V x y →
    connected width height data (x, y) (x', y') → marked width V x' y';
  si_covered : ∀ x y, covered x y → foreground width height data x y →
    marked width V x y;
  si_rects : ∀ r, r ∈ R ↔
    ∃ sx sy l, inSheet width height sx sy ∧ marked width V sx sy ∧
               largeComponent (sx, sy) l r
}.
End DetectorInvariants.

(** A 5x5 crop: white paper, a black ring, and a white hole in the ring. *)
Definition donutCrop : list Z :=
  let w := [255; 255; 255; 255]%Z in
  let b := [0; 0; 0; 255]%Z in
  concat [w; w; w; w; w;
          w; b; b; b; w;
          w; b; w; b; w;
          w; b; b; b; w;
          w; w; w; w; w].

(** A sheet of [n] opaque black pixels. *)
Definition blackSheet (n : nat) : list Z :=
  concat (replicate n [0; 0; 0; 255]%Z).

(** The response text [{"filename": 123}]. *)
Definition numericFilenameText : string :=
  let q := String (ascii_of_nat 34) EmptyString in
  "{" +:+ q +:+ "filename" +:+ q +:+ ": 123}".

(** [JSON.parse] on that text, and a [SyntaxError] elsewhere. *)
Definition parseNumericFilename (text : string) : option JSValue :=
  if decide (text = numericFilenameText)
  then Some (JObj [("filename"%string, JNum 123)])
  else None.

(** ** Further invariants of the component scan *)

(** A rectangle with [min ≤ max] that lies on the sheet. *)
Definition insideSheet (width height : Z) (r : Rect) : Prop :=
  (0 ≤ minX r ∧ minX r ≤ maxX r ∧ maxX r < width ∧
   0 ≤ minY r ∧ minY r ≤ maxY r ∧ maxY r < height)%Z.

Section ScanComponentsInvariant.
Variables (width height : Z) (data : list Z).

(** [comps] lists, in the order of [rawRects], the components the
    rectangles were emitted for: all marked, no two sharing a pixel. *)
Record ScanComps (V : list bool) (R : list Rect) (comps : list (list (Z * Z)))
    : Prop := {
  sc_boxes : Forall2 (λ r l, ∃ seed, largeComponent width height data seed l r)
                     R comps;
  sc_marked : ∀ l x y, l ∈ comps → (x, y) ∈ l → marked width V x y;
  sc_disjoint : ∀ i j li lj, (i < j)%nat →
    comps !! i = Some li → comps !! j = Some lj → ∀ q, q ∈ li → q ∉ lj
}.
End ScanComponentsInvariant.


(** ** The archive loop *)

(** The names the loop of [handleDownloadAll] tries, in order: the
    sticker's own name, then the numbered ones. *)
Definition candidate (name : string) (k : nat) : string :=
  match k with
  | O => name
  | S _ => name +:+ "_" +:+ pretty k
  end.

(** The call [zip.file(`${fileName}.png`, base64Data)] made for a sticker. *)
Definition entry (fileName : string) (seg : StickerSegment.t)
    : string * option string :=
  (fileName +:+ ".png", secondField (StickerSegment.dataUrl seg)).

(** ** Further sample inputs *)

(** A 3x3 crop: a black frame around a white pixel. *)
Definition framedHole : list Z :=
  let w := [255; 255; 255; 255]%Z in
  let b := [0; 0; 0; 255]%Z in
  concat [b; b; b;
          b; w; b;
          b; b; b].

(** A 2x2 sheet of white paper. *)
Definition whiteSheet : Drawable :=
  mkDrawable 2 2 (replicate 16 255%Z).

(** An 8x8 sheet that is one black square. *)
Definition blackSquare : Drawable :=
  mkDrawable 8 8 (blackSheet 64).

(** Two stickers with different names. *)
Definition catAndDog : list StickerSegment.t :=
  [StickerSegment.mk "1" "data:image/png;base64,AAAA" 0 0 20 20 "cat" false;
   StickerSegment.mk "2" "data:image/png;base64,BBBB" 30 0 20 20 "dog" false].

(** An image service that answers with one candidate whose second part
    carries the payload it was sent, without a MIME type. *)
Definition echoService (payload : string) (style : option string) : SheetCall :=
  SheetResponds (Some [Some [None; Some (mkInlineData None (Some payload))]]).

(** * Properties *)

(** ** Loop invariants *)

Section Loops.
Context {St : Type}.

(** The invariant rule of a counting [for] loop. *)
Lemma foldl_seq_inv (f : St → nat → St) (P : nat → St → Prop) lo n s :
  P lo s →
  (∀ k s', lo ≤ k < lo + n → P k s' → P (S k) (f s' k)) →
  P (lo + n) (foldl f s (seq lo n)).
Proof.
  induction n as [|n IH]; intros H0 Hstep.
  - by rewrite Nat.add_0_r.
  - rewrite seq_S, foldl_app. simpl.
    replace (lo + S n) with (S (lo + n)) by lia.
    apply Hstep; [lia|]. apply IH; [done|].
    intros k s' Hk. apply Hstep. lia.
Qed.
End Loops.

(** ** The rectangle merger *)

Section MergerFacts.
Local Open Scope Z_scope.
Implicit Types (merged : list Rect) (tau : Z) (V : gset nat).

Lemma xDist_sym a b : xDist a b = xDist b a.
Proof. unfold xDist. lia. Qed.
Lemma yDist_sym a b : yDist a b = yDist b a.
Proof. unfold yDist. lia. Qed.
Lemma isClose_sym tau a b : isClose tau a b = isClose tau b a.
Proof. unfold isClose. by rewrite xDist_sym, yDist_sym. Qed.

Lemma contains_refl r : contains r r.
Proof. unfold contains. lia. Qed.
Lemma contains_trans a b c : contains a b → contains b c → contains a c.
Proof. unfold contains. lia. Qed.
Lemma absorb_contains_l a b : contains (absorb a b) a.
Proof. unfold contains, absorb; simpl. lia. Qed.
Lemma absorb_contains_r a b : contains (absorb a b) b.
Proof. unfold contains, absorb; simpl. lia. Qed.
Lemma absorb_valid a b : validRect a → validRect b → validRect (absorb a b).
Proof. unfold validRect, absorb; simpl. lia. Qed.

(** The inner [for j] loop, seen from a pass that ends with [changed = false]. *)
Lemma innerLoop_quiet merged tau i r V0 ch0 cur V :
  (i < length merged)%nat →
  innerLoop merged tau i (r, V0, ch0) = (cur, V, false) →
  ch0 = false ∧ cur = r ∧ V = V0 ∧
  ∀ b rb, (i < b)%nat → b ∉ V0 → merged !! b = Some rb → isClose tau r rb = false.
Proof.
  intros Hi Hrun.
  pose (P := λ (j : nat) (st : Rect * gset nat * bool),
    st.2 = false →
    ch0 = false ∧ st.1.1 = r ∧ st.1.2 = V0 ∧
    ∀ b rb, (i < b < j)%nat → b ∉ V0 → merged !! b = Some rb → isClose tau r rb = false).
  assert (HP : P (S i + (length merged - S i))%nat (innerLoop merged tau i (r, V0, ch0))).
  { unfold innerLoop. apply (foldl_seq_inv _ P).
    - intros Hch. simpl in *. repeat split; try done. intros; lia.
    - intros k [[c V'] ch] Hk IH. unfold P, innerStep in *. simpl in *. intros Hch.
      destruct (decide (k ∈ V')) as [Hin|Hin]; simpl in *.
      + destruct (IH Hch) as (-> & -> & -> & Hcl). repeat split; try done.
        intros b rb Hb Hnv Hlk. destruct (decide (b = k)) as [->|]; [done|].
        apply (Hcl b rb); [lia|done..].
      + destruct (merged !! k) as [other|] eqn:Hk'; simpl in *.
        * destruct (isClose tau c other) eqn:Hc; simpl in *; [done|].
          destruct (IH Hch) as (-> & -> & -> & Hcl). repeat split; try done.
          intros b rb Hb Hnv Hlk. destruct (decide (b = k)) as [->|].
          -- congruence.
          -- apply (Hcl b rb); [lia|done..].
        * apply lookup_ge_None in Hk'. lia. }
  rewrite Hrun in HP. unfold P in HP. destruct (HP eq_refl) as (? & ? & ? & Hcl). simpl in *.
  repeat split; try done.
  intros b rb Hb Hnv Hlk. apply (Hcl b rb); try done.
  apply lookup_lt_Some in Hlk. lia.
Qed.


Lemma mergePass_quiet merged tau nm :
  mergePass merged tau = (nm, false) →
  nm = merged ∧
  ∀ a b ra rb, (a < b)%nat → merged !! a = Some ra → merged !! b = Some rb →
               isClose tau ra rb = false.
Proof.
  unfold mergePass. intros Hrun.
  pose (Q := λ (i : nat) (st : list Rect * gset nat * bool),
    st.2 = false →
    st.1.1 = take i merged ∧ (∀ k, k ∈ st.1.2 ↔ (k < i)%nat) ∧
    ∀ a b ra rb, (a < i)%nat → (a < b)%nat →
      merged !! a = Some ra → merged !! b = Some rb → isClose tau ra rb = false).
  assert (HQ : Q (0 + length merged)%nat
                 (foldl (outerStep merged tau) ([], ∅, false) (seq 0 (length merged)))).
  { apply (foldl_seq_inv _ Q).
    - intros _. simpl. split; [done|]. split; [set_solver by lia|]. intros; lia.
    - intros k [[acc V] ch] Hk IH. unfold Q, outerStep in *. simpl in *.
      destruct (decide (k ∈ V)) as [Hin|Hin]; simpl.
      { intros Hch. destruct (IH Hch) as (_ & HV & _). apply HV in Hin. lia. }
      destruct (merged !! k) as [r|] eqn:Hr; simpl.
      2:{ apply lookup_ge_None in Hr. lia. }
      destruct (innerLoop merged tau k (r, {[k]} ∪ V, ch)) as [[cur V2] ch2] eqn:Hin2.
      simpl. intros ->.
      apply innerLoop_quiet in Hin2 as (-> & -> & -> & Hcl); [|lia].
      destruct (IH eq_refl) as (-> & HV & Hpairs).
      split; [by rewrite (take_S_r _ _ r)|].
      split.
      + intros j. rewrite elem_of_union, elem_of_singleton, HV. lia.
      + intros a b ra rb Ha Hab Hla Hlb.
        destruct (decide (a = k)) as [->|Hne].
        * assert (ra = r) as -> by congruence.
          apply (Hcl b rb); [done| |done].
          rewrite elem_of_union, elem_of_singleton, HV. lia.
        * apply (Hpairs a b ra rb); [lia|done..]. }
  destruct (foldl _ _ _) as [[acc V] ch]. injection Hrun as -> ->.
  destruct (HQ eq_refl) as (Hacc & _ & Hpairs). simpl in *.
  split.
  - rewrite Hacc. by rewrite take_ge.
  - intros a b ra rb Hab Hla Hlb. apply (Hpairs a b ra rb); try done.
    apply lookup_lt_Some in Hla. lia.
Qed.

Lemma innerLoop_size merged tau i c st :
  (∀ k, k ∈ st.1.2 → (k < length merged)%nat) →
  (c + b2n st.2 ≤ size st.1.2)%nat →
  let st' := innerLoop merged tau i st in
  (∀ k, k ∈ st'.1.2 → (k < length merged)%nat) ∧
  (c + b2n st'.2 ≤ size st'.1.2)%nat.
Proof.
  intros Hb Hs. unfold innerLoop.
  apply (foldl_seq_inv _ (λ _ s,
    (∀ k, k ∈ s.1.2 → (k < length merged)%nat) ∧ (c + b2n s.2 ≤ size s.1.2)%nat)).
  - done.
  - intros k [[cur V] ch] Hk [IHb IHs]. unfold innerStep. simpl in *.
    destruct (decide (k ∈ V)); [done|].
    destruct (merged !! k) eqn:Hlk; [|done].
    destruct (isClose _ _ _); [|done]. simpl. split.
    + intros j. rewrite elem_of_union, elem_of_singleton. intros [?|?]; [subst; lia|auto].
    + rewrite size_union by set_solver. rewrite size_singleton.
      destruct ch; simpl in *; lia.
Qed.

Lemma mergePass_length merged tau :
  let '(nm, ch) := mergePass merged tau in
  (length nm + b2n ch ≤ length merged)%nat.
Proof.
  unfold mergePass.
  pose (Q := λ (_ : nat) (st : list Rect * gset nat * bool),
             (∀ k, k ∈ st.1.2 → (k < length merged)%nat) ∧
             (length st.1.1 + b2n st.2 ≤ size st.1.2)%nat).
  assert (HQ : Q (0 + length merged)%nat
           (foldl (outerStep merged tau) ([], ∅, false) (seq 0 (length merged)))).
  { apply (foldl_seq_inv _ Q); unfold Q.
    - simpl. split; [set_solver|lia].
    - intros k [[acc V] ch] Hk [IHb IHs]. unfold outerStep. simpl in *.
      destruct (decide (k ∈ V)); [done|].
      destruct (merged !! k) as [r|] eqn:Hr; [|done].
      pose proof (innerLoop_size merged tau k (S (length acc)) (r, {[k]} ∪ V, ch)) as Hin.
      simpl in Hin.
      destruct (innerLoop merged tau k (r, {[k]} ∪ V, ch)) as [[cur V2] ch2].
      simpl in *. rewrite length_app. simpl.
      destruct Hin as [Hb2 Hs2].
      + intros j. rewrite elem_of_union, elem_of_singleton. intros [?|?]; [subst; lia|auto].
      + rewrite size_union by set_solver. rewrite size_singleton. lia.
      + split; [done|lia]. }
  destruct (foldl _ _ _) as [[acc V] ch]. unfold Q in HQ. simpl in *. destruct HQ as [Hb Hs].
  assert (size V ≤ length merged)%nat; [|lia].
  rewrite <- (size_set_seq (C:=gset nat) 0 (length merged)).
  apply subseteq_size. intros j Hj. apply elem_of_set_seq. specialize (Hb j Hj). lia.
Qed.

Lemma mergePass_shrinks merged tau nm :
  mergePass merged tau = (nm, true) → (length nm < length merged)%nat.
Proof.
  intros H. pose proof (mergePass_length merged tau) as HL. rewrite H in HL.
  simpl in HL. lia.
Qed.


Lemma innerLoop_covers merged tau i (acc : list Rect) st :
  let covered (s : Rect * gset nat * bool) :=
    ∀ k rk, k ∈ s.1.2 → merged !! k = Some rk →
            (∃ R, R ∈ acc ∧ contains R rk) ∨ contains s.1.1 rk in
  covered st →
  covered (innerLoop merged tau i st) ∧ st.1.2 ⊆ (innerLoop merged tau i st).1.2.
Proof.
  intros covered H0. unfold innerLoop.
  apply (foldl_seq_inv _ (λ _ s, covered s ∧ st.1.2 ⊆ s.1.2)); [done|].
  intros k [[cur V] ch] _ [IH Hsub]. unfold innerStep, covered in *. simpl in *.
  destruct (decide (k ∈ V)); [done|].
  destruct (merged !! k) as [other|] eqn:Hlk; [|done].
  destruct (isClose _ _ _); [|done]. simpl. split; [|set_solver].
  intros j rj. rewrite elem_of_union, elem_of_singleton. intros [->|Hj] Hlj.
  - right. assert (rj = other) as -> by congruence. apply absorb_contains_r.
  - destruct (IH j rj Hj Hlj) as [?|Hc]; [by left|right].
    eapply contains_trans; [apply absorb_contains_l|done].
Qed.

Lemma mergePass_covers merged tau r :
  r ∈ merged → ∃ R, R ∈ (mergePass merged tau).1 ∧ contains R r.
Proof.
  intros Hr. unfold mergePass.
  pose (Q := λ (i : nat) (st : list Rect * gset nat * bool),
    (∀ k, (k < i)%nat → k ∈ st.1.2) ∧
    ∀ k rk, k ∈ st.1.2 → merged !! k = Some rk → ∃ R, R ∈ st.1.1 ∧ contains R rk).
  assert (HQ : Q (0 + length merged)%nat
           (foldl (outerStep merged tau) ([], ∅, false) (seq 0 (length merged)))).
  { apply (foldl_seq_inv _ Q); unfold Q.
    - simpl. split; [intros; lia|set_solver].
    - intros k [[acc V] ch] Hk [IHlt IHc]. unfold outerStep. simpl in *.
      destruct (decide (k ∈ V)) as [Hin|Hin]; simpl.
      { split; [|done]. intros j Hj. destruct (decide (j = k)) as [->|]; [done|].
        apply IHlt. lia. }
      destruct (merged !! k) as [r0|] eqn:Hr0; simpl.
      2:{ apply lookup_ge_None in Hr0. lia. }
      pose proof (innerLoop_covers merged tau k acc (r0, {[k]} ∪ V, ch)) as Hin2.
      simpl in Hin2.
      destruct (innerLoop merged tau k (r0, {[k]} ∪ V, ch)) as [[cur V2] ch2].
      simpl in *. destruct Hin2 as [Hcov Hsub].
      { intros j rj. rewrite elem_of_union, elem_of_singleton. intros [->|Hj] Hlj.
        - right. assert (rj = r0) as -> by congruence. apply contains_refl.
        - left. by apply (IHc j). }
      split.
      + intros j Hj. apply Hsub. destruct (decide (j = k)) as [->|]; [set_solver|].
        apply elem_of_union_r, IHlt. lia.
      + intros j rj Hj Hlj. destruct (Hcov j rj Hj Hlj) as [(R & HR & Hc)|Hc].
        * exists R. split; [|done]. apply elem_of_app. by left.
        * exists cur. split; [|done]. apply elem_of_app. right. by apply list_elem_of_singleton. }
  destruct (foldl _ _ _) as [[acc V] ch]. unfold Q in HQ. simpl in *.
  destruct HQ as [Hlt Hc].
  apply list_elem_of_lookup in Hr as [k Hk].
  apply (Hc k r); [|done]. apply Hlt. by apply lookup_lt_Some in Hk.
Qed.

Lemma innerLoop_valid merged tau i st :
  Forall validRect merged → validRect st.1.1 →
  validRect (innerLoop merged tau i st).1.1.
Proof.
  intros Hall H0. unfold innerLoop.
  apply (foldl_seq_inv _ (λ _ s, validRect s.1.1)); [done|].
  intros k [[cur V] ch] _ IH. unfold innerStep. simpl in *.
  destruct (decide (k ∈ V)); [done|].
  destruct (merged !! k) as [other|] eqn:Hlk; [|done].
  destruct (isClose _ _ _); [|done]. simpl.
  apply absorb_valid; [done|]. exact (Forall_lookup_1 _ _ _ _ Hall Hlk).
Qed.

Lemma mergePass_valid merged tau :
  Forall validRect merged → Forall validRect (mergePass merged tau).1.
Proof.
  intros Hall. unfold mergePass.
  pose (Q := λ (_ : nat) (st : list Rect * gset nat * bool), Forall validRect st.1.1).
  assert (HQ : Q (0 + length merged)%nat
           (foldl (outerStep merged tau) ([], ∅, false) (seq 0 (length merged)))).
  { apply (foldl_seq_inv _ Q); unfold Q; [by simpl|].
    intros k [[acc V] ch] Hk IH. unfold outerStep. simpl in *.
    destruct (decide (k ∈ V)); [done|].
    destruct (merged !! k) as [r0|] eqn:Hr0; [|done].
    pose proof (innerLoop_valid merged tau k (r0, {[k]} ∪ V, ch) Hall) as Hv.
    destruct (innerLoop merged tau k (r0, {[k]} ∪ V, ch)) as [[cur V2] ch2].
    simpl in *. apply Forall_app. split; [done|].
    apply Forall_singleton, Hv. exact (Forall_lookup_1 _ _ _ _ Hall Hr0). }
  by destruct (foldl _ _ _) as [[acc V] ch].
Qed.

(** With fuel beyond the list length the [while (changed)] loop reaches a
    pass that merges nothing, and returns the list that pass was run on. *)
Lemma mergeLoop_total fuel tau merged :
  (length merged < fuel)%nat →
  ∃ out, mergeLoop fuel tau merged = Some out ∧
         mergePass out tau = (out, false) ∧
         (Forall validRect merged → Forall validRect out) ∧
         (∀ r, r ∈ merged → ∃ R, R ∈ out ∧ contains R r).
Proof.
  revert merged. induction fuel as [|fuel IH]; intros merged Hlen; [lia|].
  simpl. destruct (mergePass merged tau) as [nm ch] eqn:Hp.
  destruct ch.
  - destruct (IH nm) as (out & Hout & Hfix & Hval & Hcov).
    { apply mergePass_shrinks in Hp. lia. }
    exists out. split; [done|]. split; [done|]. split.
    + intros Hall. apply Hval. pose proof (mergePass_valid merged tau Hall) as Hv.
      by rewrite Hp in Hv.
    + intros r Hr. destruct (mergePass_covers merged tau r Hr) as (R1 & HR1 & Hc1).
      rewrite Hp in HR1. simpl in HR1.
      destruct (Hcov R1 HR1) as (R & HR & Hc). exists R. split; [done|].
      by eapply contains_trans.
  - pose proof (mergePass_quiet _ _ _ Hp) as [-> _].
    exists merged. split; [done|]. split; [done|]. split; [done|].
    intros r Hr. exists r. split; [done|apply contains_refl].
Qed.


Lemma mergePass_single r tau : mergePass [r] tau = ([r], false).
Proof. reflexivity. Qed.

Lemma mergePass_pair a b tau :
  mergePass [a; b] tau =
  if isClose tau a b then ([absorb a b], true) else ([a; b], false).
Proof.
  unfold mergePass, outerStep, innerLoop, innerStep. simpl.
  rewrite (decide_False (P := 0%nat ∈ (∅ : gset nat))) by set_solver. simpl.
  rewrite (decide_False (P := 1%nat ∈ ({[0%nat]} ∪ ∅ : gset nat))) by set_solver.
  destruct (isClose tau a b).
  - by rewrite (decide_True (P := 1%nat ∈ ({[1%nat]} ∪ ({[0%nat]} ∪ ∅) : gset nat)))
      by set_solver.
  - by rewrite (decide_False (P := 1%nat ∈ ({[0%nat]} ∪ ∅ : gset nat))) by set_solver.
Qed.

Lemma mergeRects_pair a b tau :
  mergeRects [a; b] tau =
  Some (if isClose tau a b then [absorb a b] else [a; b]).
Proof.
  unfold mergeRects. simpl. rewrite mergePass_pair.
  destruct (isClose tau a b); [|done]. by rewrite mergePass_single.
Qed.

(** C1: in the list [mergeRects] returns, any two rectangles at different
    positions are at least [tau] apart on the X axis or at least [tau] apart
    on the Y axis, the gap being [max(0, other.min - this.max,
    this.min - other.max)]. *)
Theorem mergeRects_no_close_pair (rects : list Rect) (tau : Z) :
  ∃ out, mergeRects rects tau = Some out ∧
    ∀ i j this other, i ≠ j → out !! i = Some this → out !! j = Some other →
      tau ≤ Z.max 0 (Z.max (minX other - maxX this) (minX this - maxX other)) ∨
      tau ≤ Z.max 0 (Z.max (minY other - maxY this) (minY this - maxY other)).
Proof.
  destruct (mergeLoop_total (S (length rects)) tau rects) as (out & Hout & Hfix & _);
    [lia|].
  exists out. split; [done|].
  apply mergePass_quiet in Hfix as [_ Hpairs].
  assert (Hfar : ∀ a b, isClose tau a b = false →
            tau ≤ Z.max 0 (Z.max (minX b - maxX a) (minX a - maxX b)) ∨
            tau ≤ Z.max 0 (Z.max (minY b - maxY a) (minY a - maxY b))).
  { intros a b. unfold isClose, xDist, yDist.
    rewrite andb_false_iff, !Z.ltb_ge. lia. }
  intros i j this other Hij Hi Hj. apply Hfar.
  destruct (decide (i < j)%nat).
  - by apply (Hpairs i j).
  - rewrite isClose_sym. apply (Hpairs j i); [lia|done..].
Qed.

Lemma mergeRects_no_close_pair_witness :
  ∃ out, mergeRects [mkRect 0 9 0 9; mkRect 3 12 4 20; mkRect 40 50 0 9] 15 = Some out ∧
    out !! 0%nat = Some (mkRect 0 12 0 20) ∧
    out !! 1%nat = Some (mkRect 40 50 0 9) ∧
    (15 ≤ Z.max 0 (Z.max (40 - 12) (0 - 50)) ∨ 15 ≤ Z.max 0 (Z.max (0 - 20) (0 - 9))).
Proof.
  destruct (mergeRects_no_close_pair
              [mkRect 0 9 0 9; mkRect 3 12 4 20; mkRect 40 50 0 9] 15)
    as (out & Hout & Hfar).
  exists out. split; [exact Hout|].
  assert (out = [mkRect 0 12 0 20; mkRect 40 50 0 9]) as ->.
  { vm_compute in Hout. congruence. }
  split; [reflexivity|]. split; [reflexivity|].
  apply (Hfar 0%nat 1%nat (mkRect 0 12 0 20) (mkRect 40 50 0 9));
    [discriminate|reflexivity|reflexivity].
Defined.

(** C5, as the code has it: two regions with [g] empty pixel columns and [g]
    empty pixel rows between them are [g + 1] apart in the merger's
    coordinate gap; every threshold above [g + 1] merges them into the
    rectangle with the least minima and greatest maxima of both, and every
    threshold up to [g + 1] returns them separate and unchanged. *)
Theorem mergeRects_two_regions (g tau : Z) (a b : Rect) :
  validRect a → validRect b → 0 ≤ g → separatedBy g a b →
  (g + 1 < tau → mergeRects [a; b] tau = Some [absorb a b]) ∧
  (tau ≤ g + 1 → mergeRects [a; b] tau = Some [a; b]).
Proof.
  intros Ha Hb Hg Hsep. rewrite mergeRects_pair.
  assert (xDist a b = g + 1 ∧ yDist a b = g + 1) as [Hx Hy].
  { unfold validRect, separatedBy, xDist, yDist in *. lia. }
  unfold isClose. rewrite Hx, Hy. split; intros Ht.
  - by rewrite (proj2 (Z.ltb_lt _ _) Ht).
  - by rewrite (proj2 (Z.ltb_ge _ _) Ht).
Qed.

Lemma mergeRects_two_regions_witness :
  mergeRects [mkRect 0 19 0 19; mkRect 30 49 30 49] 15 = Some [mkRect 0 49 0 49] ∧
  mergeRects [mkRect 0 19 0 19; mkRect 30 49 30 49] 5 =
    Some [mkRect 0 19 0 19; mkRect 30 49 30 49].
Proof.
  assert (Hv1 : validRect (mkRect 0 19 0 19)) by (unfold validRect; simpl; lia).
  assert (Hv2 : validRect (mkRect 30 49 30 49)) by (unfold validRect; simpl; lia).
  assert (Hsep : separatedBy 10 (mkRect 0 19 0 19) (mkRect 30 49 30 49))
    by (unfold separatedBy; simpl; lia).
  split.
  - apply (mergeRects_two_regions 10 15 _ _ Hv1 Hv2); [lia|exact Hsep|lia].
  - apply (mergeRects_two_regions 10 5 _ _ Hv1 Hv2); [lia|exact Hsep|lia].
Defined.

(** C5 as stated fails: with 10 empty columns and rows between two 20x20
    squares, the threshold 11 exceeds the gap but the merger keeps the
    squares apart. *)
Lemma mergeRects_gap_threshold_counterexample :
  ¬ (∀ (g tau : Z) (a b : Rect),
       validRect a → validRect b → 0 ≤ g → separatedBy g a b →
       (g < tau → mergeRects [a; b] tau = Some [absorb a b]) ∧
       (tau ≤ g → mergeRects [a; b] tau = Some [a; b])).
Proof.
  intros H.
  destruct (H 10 11 (mkRect 0 19 0 19) (mkRect 30 49 30 49)) as [Hmerge _].
  - unfold validRect; simpl; lia.
  - unfold validRect; simpl; lia.
  - lia.
  - unfold separatedBy; simpl; lia.
  - specialize (Hmerge ltac:(lia)). vm_compute in Hmerge. discriminate.
Qed.

(** C6: running [mergeRects] on its own output, with the same threshold,
    returns that output. *)
Theorem mergeRects_idempotent (rects : list Rect) (tau : Z) :
  ∃ out, mergeRects rects tau = Some out ∧ mergeRects out tau = Some out.
Proof.
  destruct (mergeLoop_total (S (length rects)) tau rects) as (out & Hout & Hfix & _);
    [lia|].
  exists out. split; [done|].
  unfold mergeRects. simpl. by rewrite Hfix.
Qed.

(** C10: a pass that merges returns a strictly shorter list, a pass that
    does not merge ends the loop with the list it was given, and so
    [mergeRects] returns on every list; every input rectangle lies inside
    some rectangle of the result. *)
Theorem mergeRects_terminates_and_covers (rects : list Rect) (tau : Z) :
  (∀ merged newMerged,
     mergePass merged tau = (newMerged, true) →
     (length newMerged < length merged)%nat) ∧
  (∀ merged newMerged fuel,
     mergePass merged tau = (newMerged, false) →
     newMerged = merged ∧ mergeLoop (S fuel) tau merged = Some merged) ∧
  ∃ out, mergeRects rects tau = Some out ∧
    ∀ r, r ∈ rects → ∃ R, R ∈ out ∧ contains R r.
Proof.
  split; [intros merged newMerged; apply mergePass_shrinks|].
  split.
  - intros merged newMerged fuel Hp.
    pose proof (mergePass_quiet _ _ _ Hp) as [-> _].
    split; [done|]. simpl. by rewrite Hp.
  - destruct (mergeLoop_total (S (length rects)) tau rects)
      as (out & Hout & _ & _ & Hcov); [lia|].
    by exists out.
Qed.

Lemma mergeRects_terminates_and_covers_witness :
  (length [mkRect 0 12 0 20; mkRect 40 50 0 9] <
   length [mkRect 0 9 0 9; mkRect 3 12 4 20; mkRect 40 50 0 9])%nat ∧
  mergeLoop 1 15 [mkRect 0 9 0 9; mkRect 40 50 0 9] =
    Some [mkRect 0 9 0 9; mkRect 40 50 0 9] ∧
  ∃ R, R ∈ [mkRect 0 12 0 20; mkRect 40 50 0 9] ∧ contains R (mkRect 3 12 4 20).
Proof.
  pose proof (mergeRects_terminates_and_covers
                [mkRect 0 9 0 9; mkRect 3 12 4 20; mkRect 40 50 0 9] 15)
    as (Hshrink & Hstop & out & Hout & Hcov).
  split; [|split].
  - apply (Hshrink [mkRect 0 9 0 9; mkRect 3 12 4 20; mkRect 40 50 0 9]
                   [mkRect 0 12 0 20; mkRect 40 50 0 9]).
    vm_compute. reflexivity.
  - apply (Hstop [mkRect 0 9 0 9; mkRect 40 50 0 9]
                 [mkRect 0 9 0 9; mkRect 40 50 0 9] 0%nat).
    reflexivity.
  - assert (out = [mkRect 0 12 0 20; mkRect 40 50 0 9]) as Heq.
    { vm_compute in Hout. congruence. }
    rewrite <- Heq. apply Hcov.
    apply list_elem_of_lookup. exists 1%nat. reflexivity.
Defined.

End MergerFacts.

(** ** The exterior flood fill of the extractor *)

Section ArrayFacts.
Context {A : Type}.
Implicit Types (arr : list A) (i j : Z).

Lemma arrGet_arrSet_eq arr i v :
  is_Some (arrGet arr i) → arrGet (arrSet arr i v) i = Some v.
Proof.
  unfold arrGet, arrSet. destruct (decide (0 ≤ i)%Z); [|by intros [? ?]].
  intros [x Hx]. apply list_lookup_insert_eq. by eapply lookup_lt_Some.
Qed.

Lemma arrGet_arrSet_ne arr i j v :
  i ≠ j → arrGet (arrSet arr i v) j = arrGet arr j.
Proof.
  unfold arrGet, arrSet. intros Hne.
  destruct (decide (0 ≤ j)%Z); [|done].
  destruct (decide (0 ≤ i)%Z); [|done].
  apply list_lookup_insert_ne. lia.
Qed.

Lemma arrGet_arrSet arr i v :
  arrGet (arrSet arr i v) i = (λ _, v) <$> arrGet arr i.
Proof.
  unfold arrGet, arrSet. destruct (decide (0 ≤ i)%Z); [|done].
  rewrite list_lookup_insert. destruct (decide _) as [[_ Hlt]|Hge].
  - apply lookup_lt_is_Some in Hlt as [x ->]. done.
  - destruct (arr !! Z.to_nat i) eqn:Hl; [|done].
    apply lookup_lt_Some in Hl. lia.
Qed.

Lemma length_arrSet arr i v : length (arrSet arr i v) = length arr.
Proof. unfold arrSet. destruct (decide _); [apply length_insert|done]. Qed.

Lemma arrGet_is_Some arr i :
  is_Some (arrGet arr i) ↔ (0 ≤ i < Z.of_nat (length arr))%Z.
Proof.
  unfold arrGet. destruct (decide (0 ≤ i)%Z).
  - rewrite lookup_lt_is_Some. lia.
  - split; [by intros [? ?]|lia].
Qed.
End ArrayFacts.

Lemma elem_of_zrange lo hi z : z ∈ zrange lo hi ↔ (lo ≤ z < hi)%Z.
Proof. unfold zrange. rewrite elem_of_seqZ. lia. Qed.

Lemma countFalse_le m : countFalse m ≤ length m.
Proof. induction m as [|[] m IH]; simpl; lia. Qed.

Lemma countFalse_insert m (i : nat) :
  m !! i = Some false → S (countFalse (<[i:=true]> m)) = countFalse m.
Proof.
  revert i. induction m as [|b m IH]; intros [|i] Hi; try done.
  - simpl in Hi. by injection Hi as ->.
  - simpl in *. specialize (IH i Hi). lia.
Qed.

Lemma countFalse_arrSet m i :
  arrGet m i = Some false → S (countFalse (arrSet m i true)) = countFalse m.
Proof.
  unfold arrGet, arrSet. destruct (decide _); [|done]. apply countFalse_insert.
Qed.

Section ExteriorFacts.
Local Open Scope Z_scope.
Variables (W H : Z) (px : list Z).
Hypotheses (HW : 0 < W) (HH : 0 < H).

Local Abbreviation inC := (inCrop W H).
Local Abbreviation onB := (onBorder W H).
Local Abbreviation bgP := (bgPixel W px).
Local Abbreviation ext := (exterior W H px).
Local Abbreviation mkd := (marked W).
Local Abbreviation FInv := (FloodInv W H px).
Local Abbreviation pushN := (pushNeighbors W H).

Lemma cell_inj x y x' y' :
  inC x y → inC x' y' → y * W + x = y' * W + x' → x = x' ∧ y = y'.
Proof.
  unfold inCrop. intros [? ?] [? ?] Heq.
  assert (y = y') as ->; [|lia].
  destruct (Z.lt_trichotomy y y') as [Hlt|[?|Hlt]]; [|done|].
  - assert (W * 1 ≤ W * (y' - y)) by (apply Z.mul_le_mono_nonneg_l; lia). lia.
  - assert (W * 1 ≤ W * (y - y')) by (apply Z.mul_le_mono_nonneg_l; lia). lia.
Qed.

Lemma cell_bound x y : inC x y → 0 ≤ y * W + x < W * H.
Proof. unfold inCrop. intros [? ?]. nia. Qed.

Lemma cell_is_Some (m : list bool) x y :
  length m = Z.to_nat (W * H) → inC x y → is_Some (arrGet m (y * W + x)).
Proof.
  intros Hlen Hin. apply arrGet_is_Some. apply cell_bound in Hin. lia.
Qed.

Lemma marked_arrSet (m : list bool) cx cy x y :
  length m = Z.to_nat (W * H) → inC cx cy → inC x y →
  mkd (arrSet m (cy * W + cx) true) x y ↔ (x = cx ∧ y = cy) ∨ mkd m x y.
Proof.
  intros Hlen Hc Hin. unfold marked.
  destruct (decide (cy * W + cx = y * W + x)) as [Heq|Hne].
  - apply cell_inj in Heq as [-> ->]; [|done..].
    rewrite arrGet_arrSet_eq by by apply cell_is_Some. naive_solver.
  - rewrite arrGet_arrSet_ne by done. split; [tauto|].
    intros [[-> ->]|?]; [done|done].
Qed.

Lemma elem_of_pushNeighbors cx cy stack x y :
  inC cx cy →
  (x, y) ∈ pushN cx cy stack ↔
  (x, y) ∈ stack ∨ (adjacent4 cx cy x y ∧ inC x y).
Proof.
  unfold pushNeighbors, adjacent4, inCrop. intros Hc.
  destruct (Z.ltb_spec 0 cx), (Z.ltb_spec cx (W - 1)),
           (Z.ltb_spec 0 cy), (Z.ltb_spec cy (H - 1));
    rewrite ?elem_of_cons, ?pair_eq; intuition lia.
Qed.

Lemma length_pushNeighbors cx cy stack :
  (length (pushN cx cy stack) ≤ length stack + 4)%nat.
Proof.
  unfold pushNeighbors.
  destruct (0 <? cx), (cx <? W - 1), (0 <? cy), (cy <? H - 1); simpl; lia.
Qed.

Lemma floodVisit_cases cx cy rest m :
  floodVisit W H px cx cy rest m =
  if negb (truthy (arrGet m (cy * W + cx))) && isBackgroundAt px ((cy * W + cx) * 4)
  then (pushN cx cy rest, arrSet m (cy * W + cx) true)
  else (rest, m).
Proof. reflexivity. Qed.

Lemma truthy_true c : truthy c = true ↔ c = Some true.
Proof. destruct c as [[]|]; naive_solver. Qed.

Lemma floodVisit_inv cx cy rest m s' m' :
  FInv ((cx, cy) :: rest) m →
  floodVisit W H px cx cy rest m = (s', m') →
  FInv s' m'.
Proof.
  intros [Hlen Hstack Hsound Hborder Hclosed]. rewrite floodVisit_cases.
  destruct (Hstack cx cy) as [Hc Hwhy]; [by left|].
  destruct (truthy (arrGet m (cy * W + cx))) eqn:Ht; simpl.
  { (* already marked *)
    intros [= <- <-]. apply truthy_true in Ht.
    split; [done| |done| |].
    - intros x y Hin. apply Hstack. by right.
    - intros x y Hin Hb Hbg. destruct (Hborder x y Hin Hb Hbg) as [?|Hs]; [by left|].
      apply elem_of_cons in Hs as [[= -> ->]|?]; [by left|by right].
    - intros x y x' y' Hin Hm Hadj Hin' Hbg.
      destruct (Hclosed x y x' y' Hin Hm Hadj Hin' Hbg) as [?|Hs]; [by left|].
      apply elem_of_cons in Hs as [[= -> ->]|?]; [by left|by right]. }
  destruct (isBackgroundAt px ((cy * W + cx) * 4)) eqn:Hbgc; simpl.
  2:{ (* not background *)
    intros [= <- <-].
    split; [done| |done| |].
    - intros x y Hin. apply Hstack. by right.
    - intros x y Hin Hb Hbg. destruct (Hborder x y Hin Hb Hbg) as [?|Hs]; [by left|].
      apply elem_of_cons in Hs as [[= -> ->]|?]; [|by right].
      unfold bgPixel in Hbg. congruence.
    - intros x y x' y' Hin Hm Hadj Hin' Hbg.
      destruct (Hclosed x y x' y' Hin Hm Hadj Hin' Hbg) as [?|Hs]; [by left|].
      apply elem_of_cons in Hs as [[= -> ->]|?]; [|by right].
      unfold bgPixel in Hbg. congruence. }
  (* marked now *)
  intros [= <- <-].
  assert (Hext : ext cx cy).
  { destruct Hwhy as [Hb|(x0 & y0 & Hin0 & Hm0 & Hadj)].
    - by apply exterior_border.
    - eapply exterior_step; [by apply (Hsound x0 y0)|done..]. }
  split.
  - by rewrite length_arrSet.
  - intros x y. rewrite elem_of_pushNeighbors by done. intros [Hin|[Hadj Hin]].
    + destruct (Hstack x y) as [Hxy Hw]; [by right|]. split; [done|].
      destruct Hw as [?|(x0 & y0 & Hin0 & Hm0 & Hadj)]; [by left|right].
      exists x0, y0. split; [done|]. split; [|done].
      apply marked_arrSet; [done..|by right].
    + split; [done|]. right. exists cx, cy. split; [done|]. split; [|done].
      apply marked_arrSet; [done..|by left].
  - intros x y Hin Hm. apply marked_arrSet in Hm as [[-> ->]|Hm]; [done| |done..].
    by apply Hsound.
  - intros x y Hin Hb Hbg. rewrite marked_arrSet, elem_of_pushNeighbors by done.
    destruct (Hborder x y Hin Hb Hbg) as [?|Hs]; [by left; right|].
    apply elem_of_cons in Hs as [[= -> ->]|?]; [by left; left|by right; left].
  - intros x y x' y' Hin Hm Hadj Hin' Hbg.
    rewrite marked_arrSet, elem_of_pushNeighbors by done.
    apply marked_arrSet in Hm as [[-> ->]|Hm]; [| |done..].
    + right. by right.
    + destruct (Hclosed x y x' y' Hin Hm Hadj Hin' Hbg) as [?|Hs]; [by left; right|].
      apply elem_of_cons in Hs as [[= -> ->]|?]; [by left; left|by right; left].
Qed.

Lemma floodVisit_measure cx cy rest m s' m' :
  FInv ((cx, cy) :: rest) m →
  floodVisit W H px cx cy rest m = (s', m') →
  (floodMeasure s' m' < floodMeasure ((cx, cy) :: rest) m)%nat.
Proof.
  intros Hinv. rewrite floodVisit_cases. unfold floodMeasure.
  destruct (inv_stack _ _ _ _ _ Hinv cx cy) as [Hc _]; [by left|].
  destruct (cell_is_Some m cx cy (inv_len _ _ _ _ _ Hinv) Hc) as [b Hb].
  rewrite Hb. destruct b; simpl; [intros [= <- <-]; simpl; lia|].
  destruct (isBackgroundAt _ _); simpl; intros [= <- <-]; simpl; [|lia].
  pose proof (countFalse_arrSet _ _ Hb).
  pose proof (length_pushNeighbors cx cy rest). lia.
Qed.

Lemma floodFill_total fuel stack m :
  FInv stack m → (floodMeasure stack m < fuel)%nat →
  ∃ m', floodFill W H px fuel stack m = Some m' ∧ FInv [] m'.
Proof.
  revert stack m. induction fuel as [|fuel IH]; intros stack m Hinv Hfuel; [lia|].
  simpl. destruct stack as [|[cx cy] rest]; [by exists m|].
  destruct (floodVisit W H px cx cy rest m) as [s' m'] eqn:Hv.
  apply IH.
  - by eapply floodVisit_inv.
  - pose proof (floodVisit_measure _ _ _ _ _ _ Hinv Hv). lia.
Qed.

Lemma elem_of_edgeSeeds x y :
  (x, y) ∈ edgeSeeds W H ↔ inC x y ∧ onB x y.
Proof.
  unfold edgeSeeds, inCrop, onBorder.
  rewrite elem_of_reverse, elem_of_app, !list_elem_of_bind.
  split.
  - intros [(z & Hz1 & Hz2)|(z & Hz1 & Hz2)]; apply elem_of_zrange in Hz2;
      rewrite !elem_of_cons, elem_of_nil, !pair_eq in Hz1; lia.
  - intros [[Hx Hy] Hb].
    destruct (decide (y = 0 ∨ y = H - 1)) as [Hrow|Hcol].
    + left. exists x. rewrite elem_of_zrange, !elem_of_cons, !pair_eq. lia.
    + right. exists y. rewrite elem_of_zrange, !elem_of_cons, !pair_eq. lia.
Qed.

Lemma marked_replicate n x y : ¬ mkd (replicate n false) x y.
Proof.
  unfold marked, arrGet. destruct (decide _); [|done].
  intros Hm. by apply lookup_replicate_1 in Hm as [? _].
Qed.

Lemma FloodInv_init :
  FInv (edgeSeeds W H) (replicate (Z.to_nat (W * H)) false).
Proof.
  split.
  - apply length_replicate.
  - intros x y Hs. apply elem_of_edgeSeeds in Hs as [? ?]. split; [done|by left].
  - intros x y _ Hm. by apply marked_replicate in Hm.
  - intros x y Hin Hb _. right. by apply elem_of_edgeSeeds.
  - intros x y x' y' _ Hm. by apply marked_replicate in Hm.
Qed.

(** When the stack is empty the marked cells are exactly the exterior. *)
Lemma FloodInv_done m x y :
  FInv [] m → inC x y → (mkd m x y ↔ ext x y).
Proof.
  intros [Hlen Hstack Hsound Hborder Hclosed] Hin. split; [by apply Hsound|].
  intros He. clear Hin. induction He as [x y Hin Hb Hbg|x y x' y' He IH Hadj Hin' Hbg].
  - destruct (Hborder x y Hin Hb Hbg) as [?|Hs]; [done|]. by apply elem_of_nil in Hs.
  - assert (Hin : inC x y) by (by inversion He).
    destruct (Hclosed x y x' y' Hin IH Hadj Hin' Hbg) as [?|Hs]; [done|].
    by apply elem_of_nil in Hs.
Qed.

Lemma exteriorMask_total :
  ∃ m, exteriorMask W H px = Some m ∧ length m = Z.to_nat (W * H) ∧
       ∀ x y, inC x y → (arrGet m (y * W + x) = Some true ↔ ext x y).
Proof.
  unfold exteriorMask.
  destruct (floodFill_total
              (5 * length (replicate (Z.to_nat (W * H)) false) +
               length (edgeSeeds W H) + 1)
              (edgeSeeds W H) (replicate (Z.to_nat (W * H)) false))
    as (m & Hm & Hinv).
  - apply FloodInv_init.
  - unfold floodMeasure.
    pose proof (countFalse_le (replicate (Z.to_nat (W * H)) false)). lia.
  - exists m. split; [done|]. split; [apply (inv_len _ _ _ _ _ Hinv)|].
    intros x y Hin. by apply FloodInv_done.
Qed.
End ExteriorFacts.

Section ClearFacts.
Local Open Scope Z_scope.
Variables (W H : Z).

Lemma clearExterior_spec (mask : list bool) (p0 : list Z) :
  length (clearExterior W H mask p0) = length p0 ∧
  ∀ i c, 0 ≤ i → 0 ≤ c < 4 →
    arrGet (clearExterior W H mask p0) (i * 4 + c) =
    if decide (c = 3 ∧ i < W * H ∧ arrGet mask i = Some true)
    then (λ _, 0) <$> arrGet p0 (i * 4 + c)
    else arrGet p0 (i * 4 + c).
Proof.
  unfold clearExterior, zrange, seqZ. rewrite foldl_fmap.
  pose (P := λ (k : nat) (p : list Z),
    length p = length p0 ∧
    ∀ i c, 0 ≤ i → 0 ≤ c < 4 →
      arrGet p (i * 4 + c) =
      if decide (c = 3 ∧ i < Z.of_nat k ∧ arrGet mask i = Some true)
      then (λ _, 0) <$> arrGet p0 (i * 4 + c)
      else arrGet p0 (i * 4 + c)).
  match goal with |- context [foldl ?f p0 (seq 0 ?n)] =>
    assert (HP : P (0 + n)%nat (foldl f p0 (seq 0 n))) end.
  { apply (foldl_seq_inv _ P); unfold P.
    - split; [done|]. intros i c Hi Hc.
      rewrite decide_False by lia. done.
    - intros k p _ [IHlen IH].
      replace (Z.of_nat k + 0) with (Z.of_nat k) by lia.
      destruct (truthy (arrGet mask (Z.of_nat k))) eqn:Ht.
      + apply truthy_true in Ht. split; [by rewrite length_arrSet|].
        intros i c Hi Hc.
        destruct (decide (i = Z.of_nat k ∧ c = 3)) as [[-> ->]|Hne].
        * rewrite arrGet_arrSet, IH by lia.
          repeat case_decide; try (by destruct (arrGet p0 _));
            exfalso; naive_solver lia.
        * rewrite arrGet_arrSet_ne by lia. rewrite IH by lia.
          repeat case_decide; try done; exfalso; naive_solver lia.
      + split; [done|]. intros i c Hi Hc. rewrite IH by lia.
        repeat case_decide; try done; exfalso.
        * naive_solver lia.
        * destruct (decide (i = Z.of_nat k)) as [->|]; [|naive_solver lia].
          destruct H1 as (_ & _ & Hm). rewrite Hm in Ht. done. }
  destruct HP as [Hlen Hcells]. split; [done|].
  intros i c Hi Hc. rewrite Hcells by done.
  repeat case_decide; try done; exfalso; naive_solver lia.
Qed.
End ClearFacts.

Section RemoveBackground.
Local Open Scope Z_scope.

Lemma removeBackground_total (W H : Z) (px : list Z) :
  0 < W → 0 < H →
  ∃ out, removeBackground W H px = Some out ∧ length out = length px.
Proof.
  intros HW HH. unfold removeBackground.
  destruct (exteriorMask_total W H px HW HH) as (m & -> & _).
  simpl. eexists. split; [done|]. apply clearExterior_spec.
Qed.

(** C3: after the background-removal step, the cells of [isExterior] that
    are set are exactly the background pixels reachable from the border of
    the crop through 4-adjacent background pixels; the red, green and blue
    samples of every pixel are as before; the alpha of an exterior pixel
    is 0 and the alpha of every other pixel is as before. *)
Theorem removeBackground_clears_exactly_exterior (W H : Z) (px : list Z) :
  0 < W → 0 < H → length px = Z.to_nat (4 * W * H) →
  ∃ isExterior out,
    exteriorMask W H px = Some isExterior ∧
    removeBackground W H px = Some out ∧
    ∀ x y, inCrop W H x y →
      let i := y * W + x in
      (arrGet isExterior i = Some true ↔ exterior W H px x y) ∧
      arrGet out (i * 4) = arrGet px (i * 4) ∧
      arrGet out (i * 4 + 1) = arrGet px (i * 4 + 1) ∧
      arrGet out (i * 4 + 2) = arrGet px (i * 4 + 2) ∧
      (exterior W H px x y → arrGet out (i * 4 + 3) = Some 0) ∧
      (¬ exterior W H px x y → arrGet out (i * 4 + 3) = arrGet px (i * 4 + 3)).
Proof.
  intros HW HH Hlen.
  destruct (exteriorMask_total W H px HW HH) as (m & Hm & Hmlen & Hmask).
  exists m, (clearExterior W H m px). split; [done|].
  split; [unfold removeBackground; by rewrite Hm|].
  intros x y Hin i.
  destruct (clearExterior_spec W H m px) as [_ Hcells].
  assert (Hi : 0 ≤ i < W * H) by (subst i; unfold inCrop in Hin; nia).
  split; [by apply Hmask|].
  pose proof (Hcells i 0 ltac:(lia) ltac:(lia)) as H0.
  pose proof (Hcells i 1 ltac:(lia) ltac:(lia)) as H1.
  pose proof (Hcells i 2 ltac:(lia) ltac:(lia)) as H2.
  pose proof (Hcells i 3 ltac:(lia) ltac:(lia)) as H3.
  rewrite decide_False in H0 by lia. rewrite decide_False in H1 by lia.
  rewrite decide_False in H2 by lia. rewrite Z.add_0_r in H0.
  split; [done|]. split; [done|]. split; [done|].
  split.
  - intros He. apply Hmask in He; [|done]. fold i in He.
    rewrite decide_True in H3 by (split; [done|split; [lia|done]]).
    rewrite H3.
    destruct (proj2 (arrGet_is_Some px (i * 4 + 3)) ltac:(lia)) as [a ->]. done.
  - intros Hne. rewrite decide_False in H3; [done|].
    intros (_ & _ & Hset). apply Hne. by apply Hmask.
Qed.
End RemoveBackground.

Lemma removeBackground_clears_exactly_exterior_witness :
  ∃ out, removeBackground 5 5 donutCrop = Some out ∧
    exterior 5 5 donutCrop 0 0 ∧ arrGet out 3 = Some 0%Z ∧
    ¬ exterior 5 5 donutCrop 2 2 ∧ arrGet out 51 = Some 255%Z.
Proof.
  destruct (removeBackground_clears_exactly_exterior 5 5 donutCrop)
    as (m & out & Hm & Hout & Hcells); [lia|lia|reflexivity|].
  exists out. split; [exact Hout|].
  vm_compute in Hm. injection Hm as <-.
  destruct (Hcells 0 0)%Z as (Hmask0 & _ & _ & _ & Hclr0 & _);
    [unfold inCrop; lia|].
  destruct (Hcells 2 2)%Z as (Hmask2 & _ & _ & _ & _ & Hkeep2);
    [unfold inCrop; lia|].
  assert (He0 : exterior 5 5 donutCrop 0 0) by (apply Hmask0; reflexivity).
  assert (Hn2 : ¬ exterior 5 5 donutCrop 2 2).
  { intros He. apply Hmask2 in He. discriminate He. }
  split; [exact He0|]. split; [exact (Hclr0 He0)|].
  split; [exact Hn2|]. exact (Hkeep2 Hn2).
Defined.

(** ** The crop region and the result of the extractor *)

Section ExtractorFacts.
Local Open Scope Z_scope.

Lemma length_bind_const {A B : Type} (f : A → list B) (k : nat) (l : list A) :
  (∀ a, length (f a) = k) → length (l ≫= f) = (length l * k)%nat.
Proof.
  intros Hk. induction l as [|a l IH]; [done|].
  rewrite bind_cons, length_app, Hk, IH. simpl. lia.
Qed.

(** The buffer read back from the crop canvas has four cells per pixel. *)
Lemma length_cropPixels (source : Drawable) (x y w h : Z) :
  0 ≤ w → 0 ≤ h →
  length (cropPixels source x y w h) = Z.to_nat (4 * w * h).
Proof.
  intros Hw Hh. unfold cropPixels.
  rewrite (length_bind_const _ (Z.to_nat w * 4)%nat).
  - unfold zrange. rewrite length_seqZ. nia.
  - intros row. rewrite (length_bind_const _ 4%nat); [|done].
    unfold zrange. rewrite length_seqZ. f_equal. lia.
Qed.

(** The crop of a rectangle that lies two or more pixels inside the source
    on every side: it starts two pixels before the rectangle and is
    [max - min + 4] pixels long on each axis. *)
Lemma crop_region_interior (source : Drawable) (rect : Rect) :
  2 ≤ minX rect → maxX rect + 2 ≤ d_width source - 1 →
  2 ≤ minY rect → maxY rect + 2 ≤ d_height source - 1 →
  finalX rect = minX rect - 2 ∧ finalW source rect = maxX rect - minX rect + 4 ∧
  finalY rect = minY rect - 2 ∧ finalH source rect = maxY rect - minY rect + 4.
Proof. unfold finalW, finalH, finalX, finalY, padding. lia. Qed.

(** C4, at a rectangle well inside a 20x20 source: for the rectangle with
    columns 5..9 and rows 5..9 the crop starts at column 3 and row 3 and is
    8 pixels wide and high, so its last column and row are
    [maxX + 1 = 10] and [maxY + 1 = 10], one pixel beyond the rectangle
    and not two. *)
Theorem crop_region_interior_rect_example :
  let source := mkDrawable 20 20 [] in
  let rect := mkRect 5 9 5 9 in
  finalX rect = 3 ∧ finalY rect = 3 ∧
  finalW source rect = 8 ∧ finalH source rect = 8 ∧
  finalX rect + finalW source rect - 1 = maxX rect + 1 ∧
  finalY rect + finalH source rect - 1 = maxY rect + 1.
Proof. vm_compute. repeat split. Qed.

Variables (segCtxOk sCtxOk fCtxOk : bool).
Variable generateId : string.
Variable renderDataUrl : Z → Z → list Z → string.

Local Abbreviation extract :=
  (extractStickerFromRect segCtxOk sCtxOk fCtxOk generateId renderDataUrl).

(** C7: [extractStickerFromRect] returns; when the crop has non-positive
    width or height it returns null, having created no canvas; when the
    crop is positive in both and the three drawing contexts are obtained
    it returns a sticker, at the crop's offset, 12 pixels larger than the
    crop in each dimension, under the default name. *)
Theorem extractStickerFromRect_null_iff_degenerate
    (source : Drawable) (rect : Rect) (defaultName : option string) :
  ∃ result created,
    extract source rect defaultName = Some (result, created) ∧
    (finalW source rect ≤ 0 ∨ finalH source rect ≤ 0 →
       result = None ∧ created = []) ∧
    (0 < finalW source rect → 0 < finalH source rect →
     segCtxOk = true → sCtxOk = true → fCtxOk = true →
       ∃ seg, result = Some seg ∧
         StickerSegment.id seg = generateId ∧
         StickerSegment.originalX seg = finalX rect ∧
         StickerSegment.originalY seg = finalY rect ∧
         StickerSegment.width seg = finalW source rect + 12 ∧
         StickerSegment.height seg = finalH source rect + 12 ∧
         StickerSegment.name seg = default "sticker"%string defaultName ∧
         StickerSegment.isNaming seg = false).
Proof.
  unfold extractStickerFromRect.
  destruct (Z.leb_spec (finalW source rect) 0) as [HW|HW]; simpl.
  { eexists _, _. split; [done|]. split; [done|]. intros; lia. }
  destruct (Z.leb_spec (finalH source rect) 0) as [HH|HH]; simpl.
  { eexists _, _. split; [done|]. split; [done|]. intros; lia. }
  destruct segCtxOk; simpl.
  2:{ eexists _, _. split; [done|]. split; [lia|]. intros; done. }
  destruct (removeBackground_total (finalW source rect) (finalH source rect)
              (cropPixels source (finalX rect) (finalY rect)
                          (finalW source rect) (finalH source rect)) HW HH)
    as (cutout & -> & _).
  destruct sCtxOk; simpl.
  2:{ eexists _, _. split; [done|]. split; [lia|]. intros; done. }
  destruct fCtxOk; simpl.
  2:{ eexists _, _. split; [done|]. split; [lia|]. intros; done. }
  eexists _, _. split; [done|]. split; [lia|].
  intros _ _ _ _ _. eexists. split; [done|]. simpl. unfold strokeWidth.
  repeat split; lia.
Qed.
End ExtractorFacts.

Lemma extractStickerFromRect_null_iff_degenerate_witness :
  (∃ created,
     extractStickerFromRect true true true "id" (λ _ _ _, "png")
       (mkDrawable 4 4 []) (mkRect 6 7 1 2) None = Some (None, created) ∧
     created = []) ∧
  (∃ seg created,
     extractStickerFromRect true true true "id" (λ _ _ _, "png")
       (mkDrawable 5 5 donutCrop) (mkRect 1 3 1 3) None = Some (Some seg, created) ∧
     StickerSegment.width seg = 17%Z ∧ StickerSegment.name seg = "sticker").
Proof.
  split.
  - destruct (extractStickerFromRect_null_iff_degenerate true true true "id"
                (λ _ _ _, "png") (mkDrawable 4 4 []) (mkRect 6 7 1 2) None)
      as (result & created & Hrun & Hnull & _).
    destruct Hnull as [-> ->]; [left; vm_compute; discriminate|].
    exists []. split; [exact Hrun|reflexivity].
  - destruct (extractStickerFromRect_null_iff_degenerate true true true "id"
                (λ _ _ _, "png") (mkDrawable 5 5 donutCrop) (mkRect 1 3 1 3) None)
      as (result & created & Hrun & _ & Hseg).
    destruct Hseg as (seg & -> & _ & _ & _ & Hw & _ & Hn & _);
      [reflexivity|reflexivity|reflexivity|reflexivity|reflexivity|].
    exists seg, created. split; [exact Hrun|]. split; [rewrite Hw; reflexivity|exact Hn].
Defined.

(** ** The naming call *)

(** When both reads give a value, the call gives the client that
    [getAiClient] computes from the values. *)
Lemma evalGetAiClient_gives (envKey storedKey passedKey : option string) :
  evalGetAiClient (LookupGives envKey) (LookupGives storedKey) passedKey
  = inr (getAiClient envKey storedKey passedKey).
Proof.
  unfold evalGetAiClient, getAiClient.
  destruct (nonEmpty passedKey); [done|]. by destruct (nonEmpty envKey).
Qed.

(** C9 fails on the code.  The client is looked up before the [try]
    block, so with no key passed an exception thrown by reading
    [process.env] or the local storage rejects the promise instead of
    giving ["sticker"]; and a truthy [filename] that is not a string is
    returned as it is: for the response [{"filename": 123}] the function
    returns the number 123, not a string. *)
Theorem generateStickerName_failing_inputs :
  generateStickerName (LookupThrows "ReferenceError") (LookupGives None)
    (λ _, CallResponds (Some numericFilenameText)) parseNumericFilename
    "data:image/png;base64,AAAA" None
  = Throws "ReferenceError" ∧
  generateStickerName (LookupGives None) (LookupThrows "SecurityError")
    (λ _, CallResponds (Some numericFilenameText)) parseNumericFilename
    "data:image/png;base64,AAAA" (Some ""%string)
  = Throws "SecurityError" ∧
  generateStickerName (LookupGives None) (LookupGives None)
    (λ _, CallResponds (Some numericFilenameText)) parseNumericFilename
    "data:image/png;base64,AAAA" (Some "key"%string)
  = Returns (JNum 123).
Proof.
  split; [|split].
  - unfold generateStickerName, evalGetAiClient. reflexivity.
  - unfold generateStickerName, evalGetAiClient. reflexivity.
  - unfold generateStickerName. rewrite evalGetAiClient_gives.
    vm_compute. reflexivity.
Qed.

(** The invariant rule of a counting [for] loop whose body may fail. *)
Lemma foldlM_zrange_inv {St : Type} (f : St → Z → option St)
    (P : Z → St → Prop) (lo hi : Z) (s : St) :
  P lo s →
  (∀ k s', (lo ≤ k < hi)%Z → P k s' → ∃ s'', f s' k = Some s'' ∧ P (k + 1)%Z s'') →
  ∃ s', foldlM f s (zrange lo hi) = Some s' ∧ P (Z.max lo hi) s'.
Proof.
  unfold zrange. remember (Z.to_nat (hi - lo)) as n eqn:Hn.
  revert lo s Hn. induction n as [|n IH]; intros lo s Hn H0 Hstep.
  - rewrite seqZ_nil by lia. exists s. split; [done|].
    by replace (Z.max lo hi) with lo by lia.
  - rewrite seqZ_cons by lia. simpl.
    destruct (Hstep lo s) as (s1 & -> & H1); [lia|done|].
    replace (Z.succ lo) with (lo + 1)%Z by lia.
    replace (Z.pred (hi - lo)) with (hi - (lo + 1))%Z by lia.
    destruct (IH (lo + 1)%Z s1) as (s' & Hrun & Hend); [lia|done| |].
    + intros k s' Hk. apply Hstep. lia.
    + exists s'. split; [done|].
      by replace (Z.max lo hi) with (Z.max (lo + 1) hi) by lia.
Qed.

(** ** The component scan *)

Section DetectorFacts.
Local Open Scope Z_scope.
Variables (width height : Z) (data : list Z).

Local Abbreviation inS := (inSheet width height).
Local Abbreviation fg := (foreground width height data).
Local Abbreviation conn := (connected width height data).
Local Abbreviation visitN := (visitNeighbor width height data).
Local Abbreviation mk := (marked width).
Local Abbreviation largeC := (largeComponent width height data).
Local Abbreviation SInv := (ScanInv width height data).

Lemma sheet_cell_is_Some (V : list bool) x y :
  length V = Z.to_nat (width * height) → inS x y →
  is_Some (arrGet V (y * width + x)).
Proof.
  intros Hlen [? ?]. apply arrGet_is_Some. nia.
Qed.

Lemma sheet_marked_arrSet (V : list bool) cx cy x y :
  length V = Z.to_nat (width * height) → inS cx cy → inS x y →
  mk (arrSet V (cy * width + cx) true) x y ↔ (x = cx ∧ y = cy) ∨ mk V x y.
Proof.
  intros Hlen Hc Hin. apply (marked_arrSet width height); try done.
  - destruct Hc. lia.
  - destruct Hc. lia.
Qed.

Lemma connected_fg_r p x y : conn p (x, y) → fg x y.
Proof. inversion 1; subst; done. Qed.

Lemma connected_fg_l p q : conn p q → fg p.1 p.2.
Proof. induction 1; done. Qed.

Lemma connected_trans p q r : conn p q → conn q r → conn p r.
Proof.
  intros Hpq Hqr. induction Hqr as [x y Hf|q x y x' y' _ IH Hadj Hf]; [done|].
  eapply connected_step; [by apply IH|done..].
Qed.

Lemma adjacent4_sym x y x' y' : adjacent4 x y x' y' → adjacent4 x' y' x y.
Proof. unfold adjacent4. lia. Qed.

Lemma connected_sym p q : conn p q → conn q p.
Proof.
  induction 1 as [x y Hf|p x y x' y' Hpq IH Hadj Hf]; [by apply connected_refl|].
  apply connected_trans with (x, y); [|done].
  eapply connected_step; [by apply connected_refl| |by eapply connected_fg_r].
  by apply adjacent4_sym.
Qed.

Lemma visitNeighbor_spec stack (V : list bool) nx ny :
  (inS nx ny ∧ arrGet V (ny * width + nx) = Some false ∧
   isBackgroundAt data (getIdx width nx ny) = false ∧
   visitN (stack, V) (nx, ny) = ((nx, ny) :: stack, arrSet V (ny * width + nx) true))
  ∨
  (visitN (stack, V) (nx, ny) = (stack, V) ∧
   ¬ (inS nx ny ∧ arrGet V (ny * width + nx) = Some false ∧
      isBackgroundAt data (getIdx width nx ny) = false)).
Proof.
  unfold visitNeighbor, inSheet.
  destruct (Z.leb_spec 0 nx), (Z.ltb_spec nx width),
           (Z.leb_spec 0 ny), (Z.ltb_spec ny height); simpl;
    try (right; split; [done|lia]).
  destruct (arrGet V (ny * width + nx)) as [[]|] eqn:Hv;
    try (right; split; [done|naive_solver]).
  destruct (isBackgroundAt data (getIdx width nx ny)) eqn:Hb; simpl.
  - right. split; [done|naive_solver].
  - left. repeat split; try done; lia.
Qed.

Section OneFill.
Variables (sx sy : Z) (V0 : list bool).
Hypothesis HV0 : length V0 = Z.to_nat (width * height).
Hypothesis Hdisj : ∀ x y, conn (sx, sy) (x, y) → ¬ mk V0 x y.

Local Abbreviation FCore := (FillCore width height data sx sy V0).
Local Abbreviation FInv1 := (FillInv width height data sx sy V0).

Lemma visitNeighbor_core D stack V cx cy nx ny stack' V' :
  FCore D stack V → (cx, cy) ∈ D → adjacent4 cx cy nx ny →
  visitN (stack, V) (nx, ny) = (stack', V') →
  FCore D stack' V' ∧
  (∀ q, q ∈ stack → q ∈ stack') ∧
  (fg nx ny → (nx, ny) ∈ D ++ stack') ∧
  (countFalse V' + length stack' = countFalse V + length stack)%nat.
Proof.
  intros [Hlen Hnd Hconn Hmk] HcD Hadj Hrun.
  assert (Hc : conn (sx, sy) (cx, cy)) by (apply Hconn, elem_of_app; by left).
  destruct (visitNeighbor_spec stack V nx ny) as [(Hin & Hv & Hb & Heq)|[Heq Hno]];
    rewrite Heq in Hrun; injection Hrun as <- <-.
  - assert (Hn : conn (sx, sy) (nx, ny)).
    { eapply connected_step; [done|done|]. by split. }
    assert (Hfresh : (nx, ny) ∉ D ++ stack).
    { intros Hel. assert (mk V nx ny) as Hm by (apply Hmk; [done|by right]).
      unfold marked in Hm. congruence. }
    split; [split|split; [|split]].
    + by rewrite length_arrSet.
    + apply NoDup_app in Hnd as (HD & Hds & Hs).
      apply NoDup_app. split; [done|]. split.
      * intros q Hq Hq'. apply elem_of_cons in Hq' as [->|Hq'].
        -- apply Hfresh, elem_of_app. by left.
        -- by apply (Hds q).
      * apply NoDup_cons. split; [|done].
        intros Hq. apply Hfresh, elem_of_app. by right.
    + intros x y. rewrite elem_of_app, elem_of_cons.
      intros [Hd|[[= -> ->]|Hs]]; [|done|].
      * apply Hconn, elem_of_app. by left.
      * apply Hconn, elem_of_app. by right.
    + intros x y Hxy. rewrite sheet_marked_arrSet by done.
      rewrite (Hmk x y Hxy), !elem_of_app, elem_of_cons, pair_eq. tauto.
    + intros q Hq. by right.
    + intros _. apply elem_of_app. right. by left.
    + pose proof (countFalse_arrSet _ _ Hv). simpl. lia.
  - split; [done|]. split; [done|]. split; [|done].
    intros [Hin Hb].
    destruct (sheet_cell_is_Some V nx ny Hlen Hin) as [[] Hv].
    + assert (Hn : conn (sx, sy) (nx, ny)).
      { eapply connected_step; [done|done|]. by split. }
      destruct (proj1 (Hmk nx ny Hin) Hv) as [Hm0|?]; [|done].
      by apply Hdisj in Hn.
    + exfalso. by apply Hno.
Qed.

Lemma visitNeighbors_core D cx cy ns stack V stack' V' :
  FCore D stack V → (cx, cy) ∈ D →
  (∀ nx ny, (nx, ny) ∈ ns → adjacent4 cx cy nx ny) →
  foldl visitN (stack, V) ns = (stack', V') →
  FCore D stack' V' ∧
  (∀ q, q ∈ stack → q ∈ stack') ∧
  (∀ nx ny, (nx, ny) ∈ ns → fg nx ny → (nx, ny) ∈ D ++ stack') ∧
  (countFalse V' + length stack' = countFalse V + length stack)%nat.
Proof.
  revert stack V. induction ns as [|[nx ny] ns IH]; intros stack V Hcore HcD Hadj Hrun.
  - simpl in Hrun. injection Hrun as <- <-.
    split; [done|]. split; [done|]. split; [|done].
    intros nx ny Hn. by apply elem_of_nil in Hn.
  - change (foldl visitN (visitN (stack, V) (nx, ny)) ns = (stack', V')) in Hrun.
    destruct (visitN (stack, V) (nx, ny)) as [s1 V1] eqn:H1.
    destruct (visitNeighbor_core D stack V cx cy nx ny s1 V1 Hcore HcD)
      as (Hcore1 & Hsub1 & Hn1 & Hm1); [apply Hadj; by left|done|].
    destruct (IH s1 V1 Hcore1 HcD) as (Hcore2 & Hsub2 & Hn2 & Hm2);
      [intros; apply Hadj; by right|done|].
    split; [done|]. split; [auto|]. split; [|lia].
    intros x y Hxy Hf. apply elem_of_cons in Hxy as [[= -> ->]|Hxy]; [|by apply Hn2].
    specialize (Hn1 Hf). apply elem_of_app in Hn1 as [?|?]; apply elem_of_app; auto.
Qed.


Lemma FillCore_shift D q rest V :
  FCore D (q :: rest) V → FCore (D ++ [q]) rest V.
Proof.
  intros [Hlen Hnd Hconn Hmk].
  split; [done|..]; rewrite <- app_assoc; done.
Qed.

Lemma elem_of_neighbors cx cy nx ny :
  (nx, ny) ∈ [(cx + 1, cy); (cx - 1, cy); (cx, cy + 1); (cx, cy - 1)] ↔
  adjacent4 cx cy nx ny.
Proof.
  rewrite !elem_of_cons, elem_of_nil, !pair_eq. unfold adjacent4. lia.
Qed.

Lemma boundingBox_extend r l cx cy :
  boundingBox r l →
  boundingBox
    (mkRect (if cx <? minX r then cx else minX r)
            (if maxX r <? cx then cx else maxX r)
            (if cy <? minY r then cy else minY r)
            (if maxY r <? cy then cy else maxY r))
    (l ++ [(cx, cy)]).
Proof.
  intros (Hin & [y1 H1] & [y2 H2] & [x3 H3] & [x4 H4]).
  unfold boundingBox. simpl.
  assert (Hq : (cx, cy) ∈ l ++ [(cx, cy)]) by (apply elem_of_app; right; by left).
  assert (Hl : ∀ q, q ∈ l → q ∈ l ++ [(cx, cy)]) by (intros; apply elem_of_app; by left).
  split; [|split; [|split; [|split]]].
  - intros x y Hxy. apply elem_of_app in Hxy as [Hxy|Hxy].
    + specialize (Hin x y Hxy).
      destruct (Z.ltb_spec cx (minX r)), (Z.ltb_spec (maxX r) cx),
               (Z.ltb_spec cy (minY r)), (Z.ltb_spec (maxY r) cy); lia.
    + apply list_elem_of_singleton in Hxy as [= -> ->].
      destruct (Z.ltb_spec cx (minX r)), (Z.ltb_spec (maxX r) cx),
               (Z.ltb_spec cy (minY r)), (Z.ltb_spec (maxY r) cy); lia.
  - destruct (cx <? minX r); eauto.
  - destruct (maxX r <? cx); eauto.
  - destruct (cy <? minY r); eauto.
  - destruct (maxY r <? cy); eauto.
Qed.

Lemma fillStep_inv D f cx cy rest :
  FInv1 D f → f_stack f = (cx, cy) :: rest →
  FInv1 (D ++ [(cx, cy)]) (fillStep width height data cx cy rest f) ∧
  S (fillMeasure (fillStep width height data cx cy rest f)) = fillMeasure f.
Proof.
  intros [Hcore Hclosed Hseed Hcount Hbbox] Hstack.
  unfold fillStep, fillMeasure. rewrite Hstack in *.
  destruct (foldl visitN (rest, f_visited f) _) as [s' V'] eqn:Hn. simpl.
  apply FillCore_shift in Hcore.
  assert (HcD : (cx, cy) ∈ D ++ [(cx, cy)]) by (apply elem_of_app; right; by left).
  assert (Hadjs : ∀ nx ny,
            (nx, ny) ∈ [(cx + 1, cy); (cx - 1, cy); (cx, cy + 1); (cx, cy - 1)] →
            adjacent4 cx cy nx ny) by (intros nx ny; apply elem_of_neighbors).
  destruct (visitNeighbors_core _ _ _ _ _ _ _ _ Hcore HcD Hadjs Hn)
    as (Hcore' & Hsub & Hnew & Hm).
  assert (Hmono : ∀ q, q ∈ D ++ (cx, cy) :: rest → q ∈ (D ++ [(cx, cy)]) ++ s').
  { intros q. rewrite !elem_of_app, elem_of_cons, list_elem_of_singleton.
    intros [?|[?|?]]; auto. }
  split; [split|simpl; lia]; simpl.
  - done.
  - intros x y x' y' Hxy Hadj Hf. apply elem_of_app in Hxy as [Hxy|Hxy].
    + apply Hmono. by apply (Hclosed x y).
    + apply list_elem_of_singleton in Hxy as [= -> ->].
      apply Hnew; [|done]. by apply elem_of_neighbors.
  - by apply Hmono.
  - rewrite length_app. simpl. lia.
  - apply (boundingBox_extend _ _ cx cy) in Hbbox. exact Hbbox.
Qed.

Lemma fillLoop_spec fuel D f :
  FInv1 D f → (fillMeasure f < fuel)%nat →
  ∃ f' D', fillLoop width height data fuel f = Some f' ∧
           FInv1 D' f' ∧ f_stack f' = [].
Proof.
  revert D f. induction fuel as [|fuel IH]; intros D f Hinv Hfuel; [lia|].
  simpl. destruct (f_stack f) as [|[cx cy] rest] eqn:Hs; [by exists f, D|].
  destruct (fillStep_inv D f cx cy rest Hinv Hs) as [Hinv' Hm].
  apply (IH _ _ Hinv'). lia.
Qed.

Lemma boundingBox_equiv r (l l' : list (Z * Z)) :
  (∀ q, q ∈ l ↔ q ∈ l') → boundingBox r l → boundingBox r l'.
Proof.
  intros Heq (Hin & [y1 H1] & [y2 H2] & [x3 H3] & [x4 H4]).
  split; [|split; [|split; [|split]]].
  - intros x y Hxy. apply Hin. by apply Heq.
  - exists y1. by apply Heq.
  - exists y2. by apply Heq.
  - exists x3. by apply Heq.
  - exists x4. by apply Heq.
Qed.

(** The fill started at an unvisited foreground pixel returns, having
    counted and marked exactly the pixels of its component. *)
Lemma fillFrom_spec :
  fg sx sy → ¬ mk V0 sx sy →
  ∃ f l, fillFrom width height data V0 sx sy = Some f ∧
         component width height data (sx, sy) l ∧
         boundingBox (rectOf f) l ∧
         f_count f = Z.of_nat (length l) ∧
         length (f_visited f) = Z.to_nat (width * height) ∧
         ∀ x y, inS x y → (mk (f_visited f) x y ↔ mk V0 x y ∨ (x, y) ∈ l).
Proof.
  intros Hfg Hun. unfold fillFrom.
  destruct (fillLoop_spec (length V0 + 2) []
              (mkFill [(sx, sy)] (arrSet V0 (sy * width + sx) true) sx sx sy sy 0))
    as (f & D & Hrun & [[Hlen Hnd Hconn Hmk] Hclosed Hseed Hcount Hbbox] & Hstack).
  - split; simpl.
    + split; simpl.
      * by rewrite length_arrSet.
      * apply NoDup_singleton.
      * intros x y Hxy. apply list_elem_of_singleton in Hxy as [= -> ->].
        by apply connected_refl.
      * intros x y Hxy. rewrite sheet_marked_arrSet by (done || apply Hfg).
        rewrite list_elem_of_singleton, pair_eq. tauto.
    + intros x y x' y' Hxy. by apply elem_of_nil in Hxy.
    + by left.
    + done.
    + unfold boundingBox. simpl. split.
      * intros x y Hxy. apply list_elem_of_singleton in Hxy as [= -> ->]. lia.
      * repeat split; eexists; by left.
  - unfold fillMeasure. simpl.
    pose proof (countFalse_le (arrSet V0 (sy * width + sx) true)) as Hle.
    rewrite length_arrSet in Hle. lia.
  - assert (Happ : ∀ q, q ∈ D ++ f_stack f ↔ q ∈ D).
    { intros q. by rewrite Hstack, app_nil_r. }
    rewrite Hstack, app_nil_r in Hnd.
    assert (Hcomp : ∀ q, q ∈ D ↔ conn (sx, sy) q).
    { intros q. split; [destruct q; intros; by apply Hconn, Happ|].
      intros Hc. remember (sx, sy) as s eqn:Hs.
      induction Hc as [x y _|p x y x' y' _ IH Hadj Hf]; subst.
      - injection Hs as -> ->. by apply Happ.
      - apply Happ, (Hclosed x y); [by apply IH|done..]. }
    exists f, D. split; [done|]. split; [by split|].
    split; [|split; [done|split; [done|]]].
    + apply (boundingBox_equiv _ ((sx, sy) :: D)); [|done].
      intros q. rewrite elem_of_cons. split; [|auto].
      intros [->|?]; [by apply Happ|done].
    + intros x y Hxy. rewrite (Hmk x y Hxy). by rewrite Happ.
Qed.

End OneFill.

Lemma boundingBox_unique r r' (l : list (Z * Z)) :
  boundingBox r l → boundingBox r' l → r = r'.
Proof.
  intros (Hin & [y1 H1] & [y2 H2] & [x3 H3] & [x4 H4])
         (Hin' & [y1' H1'] & [y2' H2'] & [x3' H3'] & [x4' H4']).
  pose proof (Hin _ _ H1'). pose proof (Hin _ _ H2').
  pose proof (Hin _ _ H3'). pose proof (Hin _ _ H4').
  pose proof (Hin' _ _ H1). pose proof (Hin' _ _ H2).
  pose proof (Hin' _ _ H3). pose proof (Hin' _ _ H4).
  destruct r, r'; simpl in *. f_equal; lia.
Qed.

Lemma component_same_class p q l lq :
  component width height data p l → component width height data q lq →
  q ∈ l → (∀ a, a ∈ lq ↔ a ∈ l) ∧ length lq = length l.
Proof.
  intros [Hnd Hl] [Hndq Hlq] Hq. apply Hl in Hq.
  assert (Heq : ∀ a, a ∈ lq ↔ a ∈ l).
  { intros a. rewrite Hl, Hlq. split; intros Hc.
    - by apply connected_trans with q.
    - apply connected_trans with p; [by apply connected_sym|done]. }
  split; [done|]. apply Permutation_length. by apply NoDup_Permutation.
Qed.

Lemma ScanInv_weaken (c1 c2 : Z → Z → Prop) V R :
  (∀ x y, fg x y → c2 x y → c1 x y) → SInv c1 V R → SInv c2 V R.
Proof. intros Hc [? ? ? ? ?]. split; auto. Qed.

Lemma passesThresholds_spec f :
  passesThresholds f = true ↔
  50 < f_count f ∧ 5 < f_maxX f - f_minX f ∧ 5 < f_maxY f - f_minY f.
Proof.
  unfold passesThresholds. rewrite !andb_true_iff, !Z.ltb_lt. tauto.
Qed.

Lemma scanPixel_inv covered V R x y :
  inS x y → SInv covered V R →
  ∃ V' R', scanPixel width height data y (V, R) x = Some (V', R') ∧
           SInv (λ a b, covered a b ∨ (a = x ∧ b = y)) V' R'.
Proof.
  intros Hin [Hlen Hsound Hclosed Hcov Hrects]. unfold scanPixel.
  destruct (sheet_cell_is_Some V x y Hlen Hin) as [b Hb]. rewrite Hb.
  destruct b; simpl.
  { exists V, R. split; [done|]. split; try done.
    intros a c [?|[-> ->]] Hf; [by apply Hcov|done]. }
  destruct (isBackgroundAt data (getIdx width x y)) eqn:Hbg; simpl.
  { exists V, R. split; [done|]. split; try done.
    intros a c [?|[-> ->]] Hf; [by apply Hcov|].
    destruct Hf as [_ Hf]. congruence. }
  assert (Hfg : fg x y) by done.
  assert (Hun : ¬ mk V x y) by (unfold marked; congruence).
  assert (Hdisj : ∀ a c, conn (x, y) (a, c) → ¬ mk V a c).
  { intros a c Hc Hm. apply Hun. apply (Hclosed a c); [done|].
    by apply connected_sym. }
  destruct (fillFrom_spec x y V Hlen Hdisj Hfg Hun)
    as (f & l & Hrun & Hcomp & Hbox & Hcount & Hlen' & Hmk').
  rewrite Hrun.
  pose proof Hcomp as [Hnd Hl].
  assert (Hself : (x, y) ∈ l) by (apply Hl; by apply connected_refl).
  eexists _, _. split; [done|]. split.
  - done.
  - intros a c Hac Hm. apply (Hmk' a c Hac) in Hm as [Hm|Hm]; [by apply Hsound|].
    apply Hl in Hm. by eapply connected_fg_r.
  - intros a c a' c' Hm Hc.
    assert (Hac : inS a c) by (apply connected_fg_l in Hc; apply Hc).
    assert (Hac' : inS a' c') by (apply connected_fg_r in Hc; apply Hc).
    apply (Hmk' a' c' Hac'). apply (Hmk' a c Hac) in Hm as [Hm|Hm].
    + left. by apply (Hclosed a c).
    + right. apply Hl. apply Hl in Hm. by apply connected_trans with (a, c).
  - intros a c [Hc|[-> ->]] Hf.
    + apply (Hmk' a c); [apply Hf|]. left. by apply Hcov.
    + apply (Hmk' x y Hin). by right.
  - assert (Hold : ∀ r, r ∈ R →
        ∃ sx sy l0, inS sx sy ∧ mk (f_visited f) sx sy ∧ largeC (sx, sy) l0 r).
    { intros r Hr. apply Hrects in Hr as (sx & sy & l0 & Hs & Hm & Hlarge).
      exists sx, sy, l0. split; [done|]. split; [|done].
      apply (Hmk' sx sy Hs). by left. }
    assert (Hnew : ∀ r sx sy l0,
        inS sx sy → mk (f_visited f) sx sy → largeC (sx, sy) l0 r →
        r ∈ R ∨ (r = rectOf f ∧ passesThresholds f = true)).
    { intros r sx sy l0 Hs Hm Hlarge. apply (Hmk' sx sy Hs) in Hm as [Hm|Hm].
      - left. apply Hrects. by exists sx, sy, l0.
      - right. destruct Hlarge as (Hcomp0 & Hbox0 & Hn & Hw & Hh).
        destruct (component_same_class _ _ _ _ Hcomp Hcomp0 Hm) as [Hsame Hlen0].
        assert (r = rectOf f) as ->.
        { apply (boundingBox_unique _ _ l); [|done].
          by apply (boundingBox_equiv _ l0). }
        split; [done|]. apply passesThresholds_spec.
        rewrite Hcount, <- Hlen0. done. }
    intros r. destruct (passesThresholds f) eqn:Hpass.
    + rewrite elem_of_app, list_elem_of_singleton. split.
      * intros [Hr| ->]; [by apply Hold|].
        exists x, y, l. split; [done|]. split; [apply (Hmk' x y Hin); by right|].
        apply passesThresholds_spec in Hpass as (Hn & Hw & Hh).
        split; [done|]. split; [done|]. rewrite <- Hcount. done.
      * intros (sx & sy & l0 & Hs & Hm & Hlarge).
        destruct (Hnew r sx sy l0 Hs Hm Hlarge) as [?|[? _]]; auto.
    + split; [by apply Hold|].
      intros (sx & sy & l0 & Hs & Hm & Hlarge).
      by destruct (Hnew r sx sy l0 Hs Hm Hlarge) as [?|[_ ?]].
Qed.


Lemma scanRow_inv V R y :
  0 ≤ y < height → SInv (λ _ b, b < y) V R →
  ∃ V' R', scanRow width height data (V, R) y = Some (V', R') ∧
           SInv (λ _ b, b < y + 1) V' R'.
Proof.
  intros Hy Hinv. unfold scanRow.
  destruct (foldlM_zrange_inv (scanPixel width height data y)
              (λ k st, SInv (λ a b, b < y ∨ (b = y ∧ a < k)) st.1 st.2)
              0 width (V, R)) as ([V' R'] & Hrun & Hend).
  - simpl. eapply ScanInv_weaken; [|done]. intros a b [[Ha _] _] Hc. simpl. lia.
  - intros k [V1 R1] Hk Hinv1. simpl in Hinv1.
    destruct (scanPixel_inv _ V1 R1 k y ltac:(split; lia) Hinv1)
      as (V2 & R2 & Hrun & Hinv2).
    exists (V2, R2). split; [done|]. simpl.
    eapply ScanInv_weaken; [|done]. simpl. intros a b _ Hc. lia.
  - exists V', R'. split; [done|]. simpl in Hend.
    eapply ScanInv_weaken; [|done]. simpl. intros a b [[Ha _] _] Hc. lia.
Qed.

(** The scan returns, with every foreground pixel marked. *)
Lemma scanComponents_inv :
  ∃ V R,
    foldlM (scanRow width height data)
      (replicate (Z.to_nat (width * height)) false, []) (zrange 0 height)
    = Some (V, R) ∧
    SInv (λ _ b, b < Z.max 0 height) V R.
Proof.
  destruct (foldlM_zrange_inv (scanRow width height data)
              (λ y st, SInv (λ _ b, b < y) st.1 st.2)
              0 height (replicate (Z.to_nat (width * height)) false, []))
    as ([V R] & Hrun & Hend).
  - simpl. split.
    + apply length_replicate.
    + intros x y _ Hm. by apply marked_replicate in Hm.
    + intros x y x' y' Hm. by apply marked_replicate in Hm.
    + intros x y Hy [[_ ?] _]. lia.
    + intros r. split; [intros Hr; by apply elem_of_nil in Hr|].
      intros (sx & sy & l & _ & Hm & _). by apply marked_replicate in Hm.
  - intros y [V1 R1] Hy Hinv1. simpl in Hinv1.
    destruct (scanRow_inv V1 R1 y Hy Hinv1) as (V2 & R2 & Hrun & Hinv2).
    by exists (V2, R2).
  - by exists V, R.
Qed.

(** C2, as the code has it: the scan returns, and a rectangle is in its
    result exactly when it is the bounding box of a connected component of
    non-background pixels that has more than 50 pixels and whose bounds
    satisfy [maxX - minX > 5] and [maxY - minY > 5] (so the component spans
    at least 7 columns and 7 rows). *)
Theorem scanComponents_emits_large_components :
  ∃ rawRects, scanComponents width height data = Some rawRects ∧
    ∀ r, r ∈ rawRects ↔
      ∃ seed l, component width height data seed l ∧ boundingBox r l ∧
                50 < Z.of_nat (length l) ∧
                5 < maxX r - minX r ∧ 5 < maxY r - minY r.
Proof.
  unfold scanComponents.
  destruct scanComponents_inv as (V & R & -> & [_ _ _ Hcov Hrects]).
  simpl. exists R. split; [done|].
  intros r. rewrite Hrects. split.
  - intros (sx & sy & l & _ & _ & Hlarge). by exists (sx, sy), l.
  - intros ([sx sy] & l & Hcomp & Hbox & Hrest).
    assert (Hfg : fg sx sy).
    { destruct Hbox as (_ & [y1 H1] & _). apply Hcomp in H1.
      by apply connected_fg_l in H1. }
    exists sx, sy, l. split; [apply Hfg|]. split; [|done].
    apply Hcov; [|done]. destruct Hfg as [[_ ?] _]. lia.
Qed.

Lemma scanComponents_valid :
  ∃ rawRects, scanComponents width height data = Some rawRects ∧
              Forall validRect rawRects.
Proof.
  unfold scanComponents.
  destruct scanComponents_inv as (V & R & -> & [_ _ _ _ Hrects]).
  simpl. exists R. split; [done|].
  apply Forall_forall. intros r Hr.
  apply Hrects in Hr as (sx & sy & l & _ & _ & _ & Hbox & _).
  destruct Hbox as (Hin & [y1 H1] & _ & [x3 H3] & _).
  pose proof (Hin _ _ H1). pose proof (Hin _ _ H3).
  unfold validRect. lia.
Qed.

End DetectorFacts.

Lemma scanComponents_emits_large_components_witness :
  ∃ rawRects, scanComponents 7 8 (blackSheet 56) = Some rawRects ∧
    rawRects = [mkRect 0 6 0 7] ∧
    ∃ seed l, component 7 8 (blackSheet 56) seed l ∧
              boundingBox (mkRect 0 6 0 7) l ∧ (50 < Z.of_nat (length l))%Z.
Proof.
  destruct (scanComponents_emits_large_components 7 8 (blackSheet 56))
    as (rawRects & Hrun & Hiff).
  exists rawRects. split; [exact Hrun|].
  assert (rawRects = [mkRect 0 6 0 7]) as Heq.
  { vm_compute in Hrun. congruence. }
  split; [exact Heq|].
  destruct (proj1 (Hiff (mkRect 0 6 0 7))) as (seed & l & Hc & Hb & Hn & _).
  - rewrite Heq. left.
  - exists seed, l. split; [exact Hc|]. split; [exact Hb|exact Hn].
Defined.

(** C2 as stated fails: a 6x10 block of 60 opaque black pixels is one
    component with more than 50 pixels, 6 columns and 10 rows, and the scan
    emits nothing for it. *)
Lemma scanComponents_width_counterexample :
  ¬ (∀ (width height : Z) (data : list Z),
       ∃ rawRects, scanComponents width height data = Some rawRects ∧
         ∀ r, r ∈ rawRects ↔
           ∃ seed l, component width height data seed l ∧ boundingBox r l ∧
                     (50 < Z.of_nat (length l))%Z ∧
                     (5 < maxX r - minX r + 1)%Z ∧ (5 < maxY r - minY r + 1)%Z).
Proof.
  intros Hall.
  destruct (Hall 6 10 (blackSheet 60))%Z as (rawRects & Hrun & Hiff).
  assert (rawRects = []) as -> by (vm_compute in Hrun; congruence).
  destruct (fillFrom_spec 6 10 (blackSheet 60) 0 0 (replicate 60 false))%Z
    as (f & l & Hfill & Hcomp & Hbox & Hcount & _).
  - reflexivity.
  - intros x y _ Hm. by apply marked_replicate in Hm.
  - split; [unfold inSheet; lia|reflexivity].
  - intros Hm. by apply marked_replicate in Hm.
  - vm_compute in Hfill. injection Hfill as <-.
    simpl in Hcount. unfold rectOf in Hbox. simpl in Hbox.
    assert (Hin : mkRect 0 5 0 9 ∈ @nil Rect).
    { apply Hiff. exists (0, 0)%Z, l. split; [exact Hcomp|].
      split; [exact Hbox|]. simpl. lia. }
    by apply elem_of_nil in Hin.
Qed.

(** C8: every rectangle the component scan emits has [minX ≤ maxX] and
    [minY ≤ maxY], and [mergeRects] on rectangles that all have these
    returns rectangles that all have them. *)
Theorem rectangles_stay_valid :
  (∀ (width height : Z) (data : list Z),
     ∃ rawRects, scanComponents width height data = Some rawRects ∧
                 Forall validRect rawRects) ∧
  (∀ (rects : list Rect) (tau : Z),
     Forall validRect rects →
     ∃ out, mergeRects rects tau = Some out ∧ Forall validRect out).
Proof.
  split.
  - apply scanComponents_valid.
  - intros rects tau Hall.
    destruct (mergeLoop_total (S (length rects)) tau rects)
      as (out & Hout & _ & Hval & _); [lia|].
    exists out. split; [done|]. by apply Hval.
Qed.

Lemma rectangles_stay_valid_witness :
  Forall validRect [mkRect 0 9 0 9; mkRect 3 12 4 20] ∧
  ∃ out, mergeRects [mkRect 0 9 0 9; mkRect 3 12 4 20] 15 = Some out ∧
         Forall validRect out.
Proof.
  assert (Hall : Forall validRect [mkRect 0 9 0 9; mkRect 3 12 4 20]).
  { repeat constructor; simpl; lia. }
  split; [exact Hall|].
  exact (proj2 rectangles_stay_valid [mkRect 0 9 0 9; mkRect 3 12 4 20] 15%Z Hall).
Defined.

(** ** More on the rectangle merger *)

Section MergerMore.
Local Open Scope Z_scope.
Implicit Types (merged rects : list Rect) (tau : Z).

Lemma foldl_fixed {A B : Type} (f : A → B → A) (s : A) (l : list B) :
  (∀ x, x ∈ l → f s x = s) → foldl f s l = s.
Proof.
  induction l as [|x l IH]; intros Hfix; [done|].
  simpl. rewrite Hfix by left. apply IH. intros y Hy. apply Hfix. by right.
Qed.

Lemma innerLoop_far merged tau i r (V : gset nat) ch :
  (∀ j rj, (i < j)%nat → merged !! j = Some rj → isClose tau r rj = false) →
  innerLoop merged tau i (r, V, ch) = (r, V, ch).
Proof.
  intros Hfar. unfold innerLoop. apply foldl_fixed.
  intros j Hj. apply elem_of_seq in Hj. unfold innerStep.
  destruct (decide (j ∈ V)); [done|].
  destruct (merged !! j) as [rj|] eqn:Hrj; [|done].
  rewrite (Hfar j rj); [done|lia|done].
Qed.

(** A pass over a list without a close pair copies the list and reports no
    change. *)
Lemma mergePass_far merged tau :
  (∀ a b ra rb, (a < b)%nat → merged !! a = Some ra → merged !! b = Some rb →
                isClose tau ra rb = false) →
  mergePass merged tau = (merged, false).
Proof.
  intros Hfar. unfold mergePass.
  pose (Q := λ (i : nat) (st : list Rect * gset nat * bool),
    st.1.1 = take i merged ∧ st.2 = false ∧ ∀ k, k ∈ st.1.2 ↔ (k < i)%nat).
  assert (HQ : Q (0 + length merged)%nat
                 (foldl (outerStep merged tau) ([], ∅, false) (seq 0 (length merged)))).
  { apply (foldl_seq_inv _ Q); unfold Q.
    - simpl. split; [done|]. split; [done|]. intros k. split; [set_solver|lia].
    - intros k [[acc V] ch] Hk (Hacc & Hch & HV). simpl in *. subst acc ch.
      unfold outerStep.
      destruct (decide (k ∈ V)) as [Hin|Hin]; [apply HV in Hin; lia|].
      destruct (merged !! k) as [r|] eqn:Hr; [|apply lookup_ge_None in Hr; lia].
      rewrite innerLoop_far by (intros j rj ? ?; by apply (Hfar k j)).
      simpl. split; [by rewrite (take_S_r _ _ r)|]. split; [done|].
      intros j. rewrite elem_of_union, elem_of_singleton, HV. lia. }
  destruct (foldl _ _ _) as [[acc V] ch]. destruct HQ as (Hacc & Hch & _).
  simpl in *. subst. by rewrite take_ge.
Qed.

(** X1: when every two rectangles of the input are at least [tau] apart on
    the X axis or at least [tau] apart on the Y axis, [mergeRects] returns
    the input list as it is. *)
Theorem mergeRects_separated_unchanged rects tau :
  (∀ i j a b, (i < j)%nat → rects !! i = Some a → rects !! j = Some b →
              tau ≤ xDist a b ∨ tau ≤ yDist a b) →
  mergeRects rects tau = Some rects.
Proof.
  intros Hsep. unfold mergeRects. simpl. rewrite mergePass_far; [done|].
  intros i j a b Hij Ha Hb. unfold isClose.
  apply andb_false_iff. rewrite !Z.ltb_ge. by apply (Hsep i j).
Qed.

Lemma mergeRects_separated_unchanged_witness :
  mergeRects [mkRect 0 19 0 19; mkRect 40 59 0 19; mkRect 0 19 40 59] 15 =
  Some [mkRect 0 19 0 19; mkRect 40 59 0 19; mkRect 0 19 40 59].
Proof.
  apply mergeRects_separated_unchanged.
  intros [|[|[|i]]] [|[|[|j]]] a b Hij Ha Hb; simpl in Ha, Hb;
    try lia; try discriminate;
    injection Ha as <-; injection Hb as <-; vm_compute;
    (left; discriminate) || (right; discriminate).
Defined.

(** X2: with a threshold of zero or less nothing is ever merged:
    [mergeRects] returns the input list as it is. *)
Theorem mergeRects_nonpositive_threshold rects tau :
  tau ≤ 0 → mergeRects rects tau = Some rects.
Proof.
  intros Htau. unfold mergeRects. simpl. rewrite mergePass_far; [done|].
  intros i j a b _ _ _. unfold isClose, xDist.
  apply andb_false_iff. left. apply Z.ltb_ge. lia.
Qed.

Lemma mergeRects_nonpositive_threshold_witness :
  mergeRects [mkRect 0 9 0 9; mkRect 3 12 4 20] 0 =
  Some [mkRect 0 9 0 9; mkRect 3 12 4 20].
Proof. apply mergeRects_nonpositive_threshold. lia. Defined.

Lemma mergeLoop_length fuel tau merged out :
  mergeLoop fuel tau merged = Some out → (length out ≤ length merged)%nat.
Proof.
  revert merged. induction fuel as [|fuel IH]; intros merged Hrun; [done|].
  simpl in Hrun. pose proof (mergePass_length merged tau) as Hlen.
  destruct (mergePass merged tau) as [nm ch]. destruct ch.
  - apply IH in Hrun. simpl in Hlen. lia.
  - injection Hrun as <-. simpl in Hlen. lia.
Qed.

(** X3: [mergeRects] never returns more rectangles than it was given, and
    it returns the empty list exactly for the empty list. *)
Theorem mergeRects_length rects tau :
  ∃ out, mergeRects rects tau = Some out ∧
         (length out ≤ length rects)%nat ∧ (out = [] ↔ rects = []).
Proof.
  destruct (mergeLoop_total (S (length rects)) tau rects)
    as (out & Hout & _ & _ & Hcov); [lia|].
  exists out. split; [done|].
  pose proof (mergeLoop_length _ _ _ _ Hout) as Hlen.
  split; [done|]. split.
  - intros ->. destruct rects as [|r rects]; [done|].
    destruct (Hcov r) as (R & HR & _); [by left|]. by apply elem_of_nil in HR.
  - intros ->. destruct out; [done|]. simpl in Hlen. lia.
Qed.

(** Any property of rectangles that [absorb] keeps is kept by the merger. *)
Section Preserved.
Variable P : Rect → Prop.
Hypothesis P_absorb : ∀ a b, P a → P b → P (absorb a b).

Lemma innerLoop_Forall merged tau i st :
  Forall P merged → P st.1.1 → P (innerLoop merged tau i st).1.1.
Proof.
  intros Hall H0. unfold innerLoop.
  apply (foldl_seq_inv _ (λ _ s, P s.1.1)); [done|].
  intros k [[cur V] ch] _ IH. unfold innerStep. simpl in *.
  destruct (decide (k ∈ V)); [done|].
  destruct (merged !! k) as [other|] eqn:Hlk; [|done].
  destruct (isClose _ _ _); [|done]. simpl.
  apply P_absorb; [done|]. exact (Forall_lookup_1 _ _ _ _ Hall Hlk).
Qed.

Lemma mergePass_Forall merged tau :
  Forall P merged → Forall P (mergePass merged tau).1.
Proof.
  intros Hall. unfold mergePass.
  pose (Q := λ (_ : nat) (st : list Rect * gset nat * bool), Forall P st.1.1).
  assert (HQ : Q (0 + length merged)%nat
           (foldl (outerStep merged tau) ([], ∅, false) (seq 0 (length merged)))).
  { apply (foldl_seq_inv _ Q); unfold Q; [by simpl|].
    intros k [[acc V] ch] Hk IH. unfold outerStep. simpl in *.
    destruct (decide (k ∈ V)); [done|].
    destruct (merged !! k) as [r0|] eqn:Hr0; [|done].
    pose proof (innerLoop_Forall merged tau k (r0, {[k]} ∪ V, ch) Hall) as Hv.
    destruct (innerLoop merged tau k (r0, {[k]} ∪ V, ch)) as [[cur V2] ch2].
    simpl in *. apply Forall_app. split; [done|].
    apply Forall_singleton, Hv. exact (Forall_lookup_1 _ _ _ _ Hall Hr0). }
  by destruct (foldl _ _ _) as [[acc V] ch].
Qed.

Lemma mergeLoop_Forall fuel tau merged out :
  Forall P merged → mergeLoop fuel tau merged = Some out → Forall P out.
Proof.
  revert merged. induction fuel as [|fuel IH]; intros merged Hall Hrun; [done|].
  simpl in Hrun. pose proof (mergePass_Forall merged tau Hall) as Hnm.
  destruct (mergePass merged tau) as [nm ch]. destruct ch.
  - by apply (IH nm).
  - by injection Hrun as <-.
Qed.
End Preserved.

(** X4: the merger invents no coordinate and no rectangle: each bound of a
    returned rectangle is that bound of some input rectangle, and each
    returned rectangle contains some input rectangle. *)
Theorem mergeRects_bounds_from_input rects tau :
  ∃ out, mergeRects rects tau = Some out ∧
    ∀ R, R ∈ out →
      (∃ a, a ∈ rects ∧ minX R = minX a) ∧ (∃ b, b ∈ rects ∧ maxX R = maxX b) ∧
      (∃ c, c ∈ rects ∧ minY R = minY c) ∧ (∃ d, d ∈ rects ∧ maxY R = maxY d) ∧
      (∃ r, r ∈ rects ∧ contains R r).
Proof.
  destruct (mergeLoop_total (S (length rects)) tau rects) as (out & Hout & _);
    [lia|].
  exists out. split; [done|].
  pose (P := λ R : Rect,
    (∃ a, a ∈ rects ∧ minX R = minX a) ∧ (∃ b, b ∈ rects ∧ maxX R = maxX b) ∧
    (∃ c, c ∈ rects ∧ minY R = minY c) ∧ (∃ d, d ∈ rects ∧ maxY R = maxY d) ∧
    (∃ r, r ∈ rects ∧ contains R r)).
  assert (Hall : Forall P out); [|by apply Forall_forall].
  apply (mergeLoop_Forall P) with (3 := Hout).
  - intros x y ((a & Ha & Ea) & (b & Hb & Eb) & (c & Hc & Ec) & (d & Hd & Ed) & (r & Hr & Er))
             ((a' & Ha' & Ea') & (b' & Hb' & Eb') & (c' & Hc' & Ec') & (d' & Hd' & Ed') & _).
    unfold P, absorb. simpl. repeat split.
    + destruct (Z.min_spec (minX x) (minX y)) as [[_ ->]|[_ ->]]; eauto.
    + destruct (Z.max_spec (maxX x) (maxX y)) as [[_ ->]|[_ ->]]; eauto.
    + destruct (Z.min_spec (minY x) (minY y)) as [[_ ->]|[_ ->]]; eauto.
    + destruct (Z.max_spec (maxY x) (maxY y)) as [[_ ->]|[_ ->]]; eauto.
    + exists r. split; [done|]. eapply contains_trans; [apply absorb_contains_l|done].
  - apply Forall_forall. intros r Hr. unfold P.
    repeat split; try (by exists r).
    all: try (exists r; split; [done|apply contains_refl]).
Qed.

Lemma isClose_grow tau cur a b :
  contains cur a → isClose tau a b = true → isClose tau cur b = true.
Proof.
  unfold contains, isClose, xDist, yDist.
  rewrite !andb_true_iff, !Z.ltb_lt. lia.
Qed.

Lemma foldl_absorb_contains r (l : list Rect) x :
  x ∈ r :: l → contains (foldl absorb r l) x.
Proof.
  revert r x. induction l as [|y l IH]; intros r x Hx.
  - apply list_elem_of_singleton in Hx as ->. apply contains_refl.
  - simpl. apply elem_of_cons in Hx as [->|Hx].
    + eapply contains_trans; [apply (IH _ (absorb r y)); by left|apply absorb_contains_l].
    + apply elem_of_cons in Hx as [->|Hx].
      * eapply contains_trans; [apply (IH _ (absorb r y)); by left|apply absorb_contains_r].
      * apply IH. by right.
Qed.

(** One pass over a chain: the first rectangle absorbs all the others. *)
Lemma mergePass_chain r (l : list Rect) tau :
  (∀ i a b, (r :: l) !! i = Some a → (r :: l) !! S i = Some b →
            isClose tau a b = true) →
  mergePass (r :: l) tau = ([foldl absorb r l], bool_decide (l ≠ [])).
Proof.
  intros Hchain. unfold mergePass.
  change (seq 0 (length (r :: l))) with (0%nat :: seq 1 (length l)).
  cbn [foldl].
  assert (Hinner : ∃ V : gset nat,
    innerLoop (r :: l) tau 0 (r, {[0%nat]} ∪ ∅, false) =
      (foldl absorb r l, V, bool_decide (l ≠ [])) ∧
    ∀ k, k ∈ V ↔ (k < S (length l))%nat).
  { unfold innerLoop.
    pose (P := λ (j : nat) (st : Rect * gset nat * bool),
      st.1.1 = foldl absorb r (take (j - 1) l) ∧
      (∀ k, k ∈ st.1.2 ↔ (k < j)%nat) ∧
      st.2 = bool_decide (1 < j)%nat).
    assert (HP : P (1 + (length (r :: l) - 1))%nat
               (foldl (innerStep (r :: l) tau) (r, {[0%nat]} ∪ ∅, false)
                      (seq 1 (length (r :: l) - 1)))).
    { apply (foldl_seq_inv _ P); unfold P.
      - simpl. split; [done|]. split; [|done].
        intros k. rewrite elem_of_union, elem_of_singleton. set_solver by lia.
      - intros k [[cur V] ch] Hk (Hcur & HV & Hch). simpl in *.
        destruct k as [|k]; [lia|]. simpl in Hcur. rewrite Nat.sub_0_r in *.
        unfold innerStep.
        destruct (decide (S k ∈ V)) as [Hin|_]; [apply HV in Hin; lia|].
        change ((r :: l) !! S k) with (l !! k).
        destruct (l !! k) as [other|] eqn:Hother.
        2:{ apply lookup_ge_None in Hother. lia. }
        assert (Hclose : isClose tau cur other = true).
        { assert (∃ prev, (r :: l) !! k = Some prev) as [prev Hprev].
          { apply lookup_lt_is_Some. simpl. lia. }
          apply isClose_grow with prev.
          - subst cur. apply foldl_absorb_contains.
            change (r :: take k l) with (take (S k) (r :: l)).
            apply list_elem_of_lookup. exists k.
            rewrite lookup_take_lt by lia. done.
          - by apply (Hchain k). }
        rewrite Hclose. simpl. split; [|split].
        + rewrite (take_S_r _ _ other) by done. rewrite foldl_app. simpl. by subst.
        + intros j. rewrite elem_of_union, elem_of_singleton, HV. lia.
        + first [done | symmetry; apply bool_decide_eq_true; lia]. }
    destruct (foldl _ _ _) as [[cur V] ch]. destruct HP as (Hcur & HV & Hch).
    simpl in *. rewrite Nat.sub_0_r in *. rewrite take_ge in Hcur by lia.
    exists V. split.
    - subst. repeat f_equal. apply bool_decide_ext.
      destruct l; simpl; split; (done || lia).
    - intros k. rewrite HV. lia. }
  destruct Hinner as (V & Hrun & HV).
  assert (Hfirst : outerStep (r :: l) tau ([], ∅, false) 0 =
                   ([foldl absorb r l], V, bool_decide (l ≠ []))).
  { unfold outerStep. rewrite decide_False by set_solver.
    change ((r :: l) !! 0%nat) with (Some r). cbv iota beta. by rewrite Hrun. }
  rewrite Hfirst. rewrite foldl_fixed; [done|].
  intros i Hi. apply elem_of_seq in Hi. unfold outerStep.
  rewrite decide_True; [done|]. apply HV. lia.
Qed.

(** X5: a chain of rectangles, each close to the next one, comes out as one
    rectangle, the union of them all; this is how a part that is close only
    to another part still joins the whole. *)
Theorem mergeRects_chain r (l : list Rect) tau :
  (∀ i a b, (r :: l) !! i = Some a → (r :: l) !! S i = Some b →
            isClose tau a b = true) →
  mergeRects (r :: l) tau = Some [foldl absorb r l].
Proof.
  intros Hchain. unfold mergeRects. simpl.
  rewrite (mergePass_chain r l tau Hchain).
  destruct (bool_decide (l ≠ [])); [|done]. by rewrite mergePass_single.
Qed.

Lemma mergeRects_chain_witness :
  mergeRects [mkRect 0 9 0 9; mkRect 20 29 0 9; mkRect 40 49 0 9] 15 =
  Some [mkRect 0 49 0 9].
Proof.
  apply (mergeRects_chain (mkRect 0 9 0 9) [mkRect 20 29 0 9; mkRect 40 49 0 9] 15).
  intros [|[|i]] a b Ha Hb; simpl in Ha, Hb; try discriminate;
    injection Ha as <-; injection Hb as <-; reflexivity.
Defined.

End MergerMore.

(** ** More on the component scan *)

Section DetectorMore.
Local Open Scope Z_scope.
Variables (width height : Z) (data : list Z).

Local Abbreviation inS' := (inSheet width height).
Local Abbreviation fg' := (foreground width height data).
Local Abbreviation conn' := (connected width height data).
Local Abbreviation mk' := (marked width).
Local Abbreviation SInv' := (ScanInv width height data).
Local Abbreviation SComps := (ScanComps width height data).

Lemma scanComponents_inside_sheet :
  ∃ rawRects, scanComponents width height data = Some rawRects ∧
              Forall (insideSheet width height) rawRects.
Proof.
  unfold scanComponents.
  destruct (scanComponents_inv width height data)
    as (V & R & -> & [_ _ _ _ Hrects]).
  simpl. exists R. split; [done|].
  apply Forall_forall. intros r Hr.
  apply Hrects in Hr as (sx & sy & l & _ & _ & [_ Hl] & Hbox & _).
  destruct Hbox as (Hin & [y1 H1] & [y2 H2] & [x3 H3] & [x4 H4]).
  pose proof (Hin _ _ H1). pose proof (Hin _ _ H3).
  apply Hl, connected_fg_r in H1 as [[? ?] _].
  apply Hl, connected_fg_r in H2 as [[? ?] _].
  apply Hl, connected_fg_r in H3 as [[? ?] _].
  apply Hl, connected_fg_r in H4 as [[? ?] _].
  unfold insideSheet. lia.
Qed.

(** X6: every rectangle the scan emits lies on the sheet:
    [0 ≤ minX ≤ maxX < width] and [0 ≤ minY ≤ maxY < height]. *)
Theorem scanComponents_rects_on_sheet :
  ∃ rawRects, scanComponents width height data = Some rawRects ∧
    ∀ r, r ∈ rawRects →
      0 ≤ minX r ∧ minX r ≤ maxX r ∧ maxX r < width ∧
      0 ≤ minY r ∧ minY r ≤ maxY r ∧ maxY r < height.
Proof.
  destruct scanComponents_inside_sheet as (rawRects & Hrun & Hall).
  exists rawRects. split; [done|].
  intros r Hr. by apply (proj1 (Forall_forall _ _) Hall r Hr).
Qed.

Lemma scanPixel_comps covered V R comps x y :
  inS' x y → SInv' covered V R → SComps V R comps →
  ∃ V' R' comps', scanPixel width height data y (V, R) x = Some (V', R') ∧
                  SComps V' R' comps'.
Proof.
  intros Hin [Hlen Hsound Hclosed Hcov Hrects] [Hboxes Hmarked Hdisjoint].
  unfold scanPixel.
  destruct (sheet_cell_is_Some width height V x y Hlen Hin) as [b Hb]. rewrite Hb.
  destruct b; simpl; [by exists V, R, comps|].
  destruct (isBackgroundAt data (getIdx width x y)) eqn:Hbg; simpl;
    [by exists V, R, comps|].
  assert (Hfg : fg' x y) by done.
  assert (Hun : ¬ mk' V x y) by (unfold marked; congruence).
  assert (Hfresh : ∀ a c, conn' (x, y) (a, c) → ¬ mk' V a c).
  { intros a c Hc Hm. apply Hun. apply (Hclosed a c); [done|].
    by apply connected_sym. }
  destruct (fillFrom_spec width height data x y V Hlen Hfresh Hfg Hun)
    as (f & l & Hrun & Hcomp & Hbox & Hcount & Hlen' & Hmk').
  rewrite Hrun.
  assert (Hkeep : ∀ l0 a c, l0 ∈ comps → (a, c) ∈ l0 → mk' (f_visited f) a c).
  { intros l0 a c Hl0 Hac. pose proof (Hmarked l0 a c Hl0 Hac) as Hm.
    apply (Hmk' a c); [|by left].
    apply list_elem_of_lookup in Hl0 as [i Hi].
    destruct (Forall2_lookup_r _ _ _ _ _ Hboxes Hi) as (r & _ & seed & [_ Hl0] & _).
    apply Hl0 in Hac. destruct seed. apply connected_fg_r in Hac. apply Hac. }
  destruct (passesThresholds f) eqn:Hpass.
  - exists (f_visited f), (R ++ [rectOf f]), (comps ++ [l]). split; [done|]. split.
    + apply Forall2_app; [done|]. constructor; [|constructor].
      exists (x, y). apply passesThresholds_spec in Hpass as (Hn & Hw & Hh).
      split; [done|]. split; [done|]. rewrite <- Hcount. done.
    + intros l0 a c Hl0 Hac. apply elem_of_app in Hl0 as [Hl0|Hl0].
      * by apply (Hkeep l0).
      * apply list_elem_of_singleton in Hl0 as ->.
        assert (inS' a c) by (apply Hcomp, connected_fg_r in Hac; apply Hac).
        apply (Hmk' a c); [done|by right].
    + intros i j li lj Hij Hi Hj q Hq Hq'.
      assert (Hlen2 : length R = length comps) by by eapply Forall2_length.
      destruct (decide (j < length comps)%nat) as [Hjl|Hjl].
      * rewrite lookup_app_l in Hi, Hj by lia. by apply (Hdisjoint i j li lj Hij Hi Hj q).
      * rewrite lookup_app_r in Hj by lia.
        destruct (j - length comps)%nat eqn:Hd; [|by destruct n].
        injection Hj as <-. rewrite lookup_app_l in Hi by lia.
        destruct q as [a c]. apply Hcomp in Hq'.
        apply (Hfresh a c Hq'). apply (Hmarked li); [|done].
        apply list_elem_of_lookup. by exists i.
  - exists (f_visited f), R, comps. split; [done|]. by split.
Qed.


Lemma scanRow_comps V R comps y :
  0 ≤ y < height → SInv' (λ _ b, b < y) V R → SComps V R comps →
  ∃ V' R' comps', scanRow width height data (V, R) y = Some (V', R') ∧
                  SInv' (λ _ b, b < y + 1) V' R' ∧ SComps V' R' comps'.
Proof.
  intros Hy Hinv Hcomps. unfold scanRow.
  destruct (foldlM_zrange_inv (scanPixel width height data y)
              (λ k st, SInv' (λ a b, b < y ∨ (b = y ∧ a < k)) st.1 st.2 ∧
                       ∃ cs, SComps st.1 st.2 cs)
              0 width (V, R)) as ([V' R'] & Hrun & Hend & cs & Hcs).
  - simpl. split; [|by exists comps].
    eapply ScanInv_weaken; [|done]. intros a b [[Ha _] _] Hc. simpl. lia.
  - intros k [V1 R1] Hk [Hinv1 [cs1 Hcs1]]. simpl in *.
    destruct (scanPixel_inv width height data _ V1 R1 k y ltac:(split; lia) Hinv1)
      as (V2 & R2 & Hrun & Hinv2).
    destruct (scanPixel_comps _ V1 R1 cs1 k y ltac:(split; lia) Hinv1 Hcs1)
      as (V3 & R3 & cs3 & Hrun3 & Hcs3).
    rewrite Hrun in Hrun3. injection Hrun3 as <- <-.
    exists (V2, R2). split; [done|]. simpl. split; [|by exists cs3].
    eapply ScanInv_weaken; [|done]. simpl. intros a b _ Hc. lia.
  - exists V', R', cs. split; [done|]. simpl in *. split; [|done].
    eapply ScanInv_weaken; [|done]. simpl. intros a b [[Ha _] _] Hc. lia.
Qed.

(** X7: the scan emits one rectangle for each component it reports: the
    rectangles returned are, one for one and in order, the bounding boxes
    of large components no two of which share a pixel. *)
Theorem scanComponents_one_per_component :
  ∃ rawRects comps,
    scanComponents width height data = Some rawRects ∧
    Forall2 (λ r l, ∃ seed, component width height data seed l ∧
                            boundingBox r l ∧ 50 < Z.of_nat (length l))
            rawRects comps ∧
    ∀ i j li lj, i ≠ j → comps !! i = Some li → comps !! j = Some lj →
                 ∀ q, q ∈ li → q ∉ lj.
Proof.
  unfold scanComponents.
  destruct (foldlM_zrange_inv (scanRow width height data)
              (λ y st, SInv' (λ _ b, b < y) st.1 st.2 ∧ ∃ cs, SComps st.1 st.2 cs)
              0 height (replicate (Z.to_nat (width * height)) false, []))
    as ([V R] & Hrun & _ & cs & [Hboxes _ Hdisjoint]).
  - simpl. split.
    + split.
      * apply length_replicate.
      * intros x y _ Hm. by apply marked_replicate in Hm.
      * intros x y x' y' Hm. by apply marked_replicate in Hm.
      * intros x y Hy [[_ ?] _]. lia.
      * intros r. split; [intros Hr; by apply elem_of_nil in Hr|].
        intros (sx & sy & l & _ & Hm & _). by apply marked_replicate in Hm.
    + exists []. split; [constructor| |].
      * intros l x y Hl. by apply elem_of_nil in Hl.
      * intros i j li lj _ Hi. by rewrite lookup_nil in Hi.
  - intros y [V1 R1] Hy [Hinv1 [cs1 Hcs1]]. simpl in *.
    destruct (scanRow_comps V1 R1 cs1 y Hy Hinv1 Hcs1)
      as (V2 & R2 & cs2 & Hrun & Hinv2 & Hcs2).
    exists (V2, R2). split; [done|]. split; [done|by exists cs2].
  - rewrite Hrun. simpl in *. exists R, cs. split; [done|]. split.
    + eapply Forall2_impl; [exact Hboxes|].
      intros r l (seed & Hc & Hb & Hn & _). by exists seed.
    + intros i j li lj Hij Hi Hj q Hq Hq'.
      destruct (decide (i < j)%nat).
      * by apply (Hdisjoint i j li lj) with q.
      * apply (Hdisjoint j i lj li) with q; [lia|done..].
Qed.

End DetectorMore.

(** ** More on the crop and the background removal *)

Section CropMore.
Local Open Scope Z_scope.

(** X8: for a rectangle with [min ≤ max] that lies on the source, the crop
    is not degenerate, stays on the source, and covers every pixel of the
    rectangle. *)
Theorem crop_covers_rect (source : Drawable) (rect : Rect) :
  0 ≤ minX rect → minX rect ≤ maxX rect → maxX rect < d_width source →
  0 ≤ minY rect → minY rect ≤ maxY rect → maxY rect < d_height source →
  0 < finalW source rect ∧ 0 < finalH source rect ∧
  0 ≤ finalX rect ∧ finalX rect ≤ minX rect ∧
  maxX rect ≤ finalX rect + finalW source rect - 1 ∧
  finalX rect + finalW source rect ≤ d_width source ∧
  0 ≤ finalY rect ∧ finalY rect ≤ minY rect ∧
  maxY rect ≤ finalY rect + finalH source rect - 1 ∧
  finalY rect + finalH source rect ≤ d_height source.
Proof. unfold finalW, finalH, finalX, finalY, padding. lia. Qed.

Lemma crop_covers_rect_witness :
  (0 < finalW (mkDrawable 20 20 []) (mkRect 0 19 18 19))%Z ∧
  (finalX (mkRect 0 19 18 19) + finalW (mkDrawable 20 20 []) (mkRect 0 19 18 19)
   ≤ 20)%Z.
Proof.
  destruct (crop_covers_rect (mkDrawable 20 20 []) (mkRect 0 19 18 19))
    as (Hw & _ & _ & _ & _ & Hr & _); simpl; try lia.
  split; [exact Hw|exact Hr].
Defined.
End CropMore.

Section ExteriorMore.
Local Open Scope Z_scope.
Variables (W H : Z) (px : list Z).
Hypotheses (HW : 0 < W) (HH : 0 < H).

(** Cell [i] of the mask is the pixel in column [i mod W] of row [i / W]. *)
Lemma cell_coords i :
  0 ≤ i < W * H → inCrop W H (i mod W) (i / W) ∧ (i / W) * W + i mod W = i.
Proof.
  intros Hi. pose proof (Z.mod_pos_bound i W HW).
  pose proof (Z.div_mod i W ltac:(lia)).
  assert (0 ≤ i / W) by (apply Z.div_pos; lia).
  assert (i / W < H) by (apply Z.div_lt_upper_bound; lia).
  unfold inCrop. lia.
Qed.

Lemma exterior_bg x y : exterior W H px x y → inCrop W H x y ∧ bgPixel W px x y.
Proof. by inversion 1. Qed.

(** Every pixel of a row is reached from its leftmost pixel when the whole
    crop is background. *)
Lemma exterior_all_background :
  (∀ x y, inCrop W H x y → bgPixel W px x y) →
  ∀ x y, inCrop W H x y → exterior W H px x y.
Proof.
  intros Hbg x y [Hx Hy].
  assert (Hrow : ∀ n : nat, Z.of_nat n < W → exterior W H px (Z.of_nat n) y).
  { induction n as [|n IH]; intros Hn.
    - apply exterior_border; [done| |apply Hbg; done].
      unfold onBorder. by left.
    - apply exterior_step with (Z.of_nat n) y.
      + apply IH. lia.
      + unfold adjacent4. lia.
      + unfold inCrop. lia.
      + apply Hbg. unfold inCrop. lia. }
  replace x with (Z.of_nat (Z.to_nat x)) by lia. apply Hrow. lia.
Qed.

(** X9: a crop that is background everywhere comes out transparent
    everywhere: the alpha of every pixel is 0. *)
Theorem removeBackground_all_background :
  length px = Z.to_nat (4 * W * H) →
  (∀ x y, inCrop W H x y → isBackgroundAt px ((y * W + x) * 4) = true) →
  ∃ out, removeBackground W H px = Some out ∧
         ∀ x y, inCrop W H x y → arrGet out ((y * W + x) * 4 + 3) = Some 0.
Proof.
  intros Hlen Hbg.
  destruct (exteriorMask_total W H px HW HH) as (m & Hm & Hmlen & Hmask).
  exists (clearExterior W H m px).
  split; [unfold removeBackground; by rewrite Hm|].
  intros x y Hin.
  assert (Hi : 0 ≤ y * W + x < W * H) by (unfold inCrop in Hin; nia).
  destruct (clearExterior_spec W H m px) as [_ Hcells].
  rewrite (Hcells (y * W + x) 3) by lia.
  rewrite decide_True.
  - destruct (proj2 (arrGet_is_Some px ((y * W + x) * 4 + 3)) ltac:(lia)) as [a ->].
    done.
  - split; [done|]. split; [lia|]. apply Hmask; [done|].
    by apply exterior_all_background.
Qed.

Lemma clearExterior_nothing_marked (m : list bool) (p : list Z) :
  (∀ i, 0 ≤ i < W * H → truthy (arrGet m i) = false) →
  clearExterior W H m p = p.
Proof.
  intros Hm. unfold clearExterior. apply foldl_fixed.
  intros i Hi. apply elem_of_zrange in Hi. by rewrite Hm by lia.
Qed.

(** X10: when no pixel on the border of the crop is background, background
    removal changes nothing: enclosed background is never touched. *)
Theorem removeBackground_no_border_background :
  (∀ x y, inCrop W H x y → onBorder W H x y →
          isBackgroundAt px ((y * W + x) * 4) = false) →
  removeBackground W H px = Some px.
Proof.
  intros Hborder.
  assert (Hnone : ∀ x y, ¬ exterior W H px x y).
  { intros x y He. induction He as [x y Hin Hb Hbg|x y x' y' _ IH _ _ _]; [|done].
    unfold bgPixel in Hbg. rewrite Hborder in Hbg; done. }
  destruct (exteriorMask_total W H px HW HH) as (m & Hm & Hmlen & Hmask).
  unfold removeBackground. rewrite Hm. simpl. f_equal.
  apply clearExterior_nothing_marked. intros i Hi.
  destruct (cell_coords i Hi) as [Hin Heq].
  destruct (truthy (arrGet m i)) eqn:Ht; [|done].
  apply truthy_true in Ht. rewrite <- Heq in Ht.
  apply Hmask in Ht; [|done]. by apply Hnone in Ht.
Qed.


(** The background removal does not change how a pixel is classified. *)
Lemma clearExterior_keeps_class (m : list bool) x y :
  (∀ x y, inCrop W H x y →
          (arrGet m (y * W + x) = Some true ↔ exterior W H px x y)) →
  inCrop W H x y →
  isBackgroundAt (clearExterior W H m px) ((y * W + x) * 4) =
  isBackgroundAt px ((y * W + x) * 4).
Proof.
  intros Hmask Hin.
  assert (Hi : 0 ≤ y * W + x < W * H) by (unfold inCrop in Hin; nia).
  destruct (clearExterior_spec W H m px) as [_ Hcells].
  pose proof (Hcells (y * W + x) 0 ltac:(lia) ltac:(lia)) as H0.
  pose proof (Hcells (y * W + x) 1 ltac:(lia) ltac:(lia)) as H1.
  pose proof (Hcells (y * W + x) 2 ltac:(lia) ltac:(lia)) as H2.
  pose proof (Hcells (y * W + x) 3 ltac:(lia) ltac:(lia)) as H3.
  rewrite decide_False in H0 by lia. rewrite decide_False in H1 by lia.
  rewrite decide_False in H2 by lia. rewrite Z.add_0_r in H0.
  unfold isBackgroundAt. rewrite H0, H1, H2, H3.
  destruct (decide _) as [(_ & _ & Hset)|_]; [|done].
  apply Hmask in Hset; [|done]. apply exterior_bg in Hset as [_ Hbg].
  unfold bgPixel, isBackgroundAt in Hbg.
  destruct (arrGet px ((y * W + x) * 4 + 3)) as [a|]; [|done].
  simpl. by rewrite Hbg.
Qed.

End ExteriorMore.

Section Idempotent.
Local Open Scope Z_scope.
Variables (W H : Z) (px : list Z).
Hypotheses (HW : 0 < W) (HH : 0 < H).

Lemma exterior_same_class (p q : list Z) x y :
  (∀ x y, inCrop W H x y →
          isBackgroundAt q ((y * W + x) * 4) = isBackgroundAt p ((y * W + x) * 4)) →
  exterior W H p x y → exterior W H q x y.
Proof.
  intros Hsame He.
  induction He as [x y Hin Hb Hbg|x y x' y' _ IH Hadj Hin Hbg].
  - apply exterior_border; [done..|]. unfold bgPixel in *. by rewrite Hsame.
  - eapply exterior_step; [exact IH|done..|]. unfold bgPixel in *. by rewrite Hsame.
Qed.

Lemma arrSet_present {A : Type} (arr : list A) i v :
  arrGet arr i = (λ _, v) <$> arrGet arr i → arrSet arr i v = arr.
Proof.
  unfold arrGet, arrSet. destruct (decide (0 ≤ i)); [|done].
  destruct (arr !! Z.to_nat i) as [a|] eqn:Ha; simpl.
  - intros [= ->]. by apply list_insert_id.
  - intros _. apply list_insert_ge. by apply lookup_ge_None.
Qed.

(** X11: background removal is idempotent: run on its own output it
    returns that output. *)
Theorem removeBackground_idempotent :
  ∃ out, removeBackground W H px = Some out ∧
         removeBackground W H out = Some out.
Proof.
  destruct (exteriorMask_total W H px HW HH) as (m & Hm & Hmlen & Hmask).
  set (out := clearExterior W H m px).
  exists out. split; [unfold removeBackground; by rewrite Hm|].
  destruct (exteriorMask_total W H out HW HH) as (m' & Hm' & Hmlen' & Hmask').
  assert (Hclass : ∀ x y, inCrop W H x y →
    isBackgroundAt out ((y * W + x) * 4) = isBackgroundAt px ((y * W + x) * 4)).
  { intros x y Hin. by apply clearExterior_keeps_class. }
  assert (Hext : ∀ x y, exterior W H out x y ↔ exterior W H px x y).
  { intros x y. split; apply exterior_same_class; [|done].
    intros a b Hab. by rewrite Hclass. }
  assert (m' = m) as ->.
  { apply list_eq. intros i.
    destruct (decide (i < Z.to_nat (W * H))%nat) as [Hi|Hi].
    2:{ rewrite !lookup_ge_None_2 by lia. done. }
    destruct (cell_coords W H HW (Z.of_nat i) ltac:(lia)) as [Hin Heq].
    specialize (Hmask _ _ Hin). specialize (Hmask' _ _ Hin).
    rewrite Heq in Hmask, Hmask'. unfold arrGet in Hmask, Hmask'.
    rewrite decide_True in Hmask, Hmask' by lia. rewrite Nat2Z.id in Hmask, Hmask'.
    destruct (lookup_lt_is_Some_2 m i ltac:(lia)) as [b Hb].
    destruct (lookup_lt_is_Some_2 m' i ltac:(lia)) as [b' Hb'].
    rewrite Hb, Hb' in *. f_equal.
    destruct b, b'; try done.
    - exfalso. assert (Some false = Some true) by (apply Hmask', Hext, Hmask; done).
      done.
    - exfalso. assert (Some false = Some true) by (apply Hmask, Hext, Hmask'; done).
      done. }
  unfold removeBackground. rewrite Hm'. simpl. f_equal.
  unfold clearExterior at 1. apply foldl_fixed.
  intros i Hi. apply elem_of_zrange in Hi.
  destruct (truthy (arrGet m i)) eqn:Ht; [|done].
  apply truthy_true in Ht. apply arrSet_present.
  destruct (clearExterior_spec W H m px) as [_ Hcells].
  fold out in Hcells. rewrite (Hcells i 3) by lia.
  rewrite decide_True by (split; [done|split; [lia|done]]).
  by destruct (arrGet px (i * 4 + 3)).
Qed.

End Idempotent.

Lemma removeBackground_idempotent_witness :
  ∃ out, removeBackground 5 5 donutCrop = Some out ∧
         removeBackground 5 5 out = Some out.
Proof. apply removeBackground_idempotent; lia. Defined.

(** A 2x2 crop of white paper. *)
Lemma removeBackground_all_background_witness :
  ∃ out, removeBackground 2 2 (replicate 16 255%Z) = Some out ∧
         arrGet out 15 = Some 0%Z.
Proof.
  destruct (removeBackground_all_background 2 2 (replicate 16 255%Z))
    as (out & Hout & Hall); [lia|lia|reflexivity| |].
  - intros x y [Hx Hy].
    assert (Hxs : x = 0%Z ∨ x = 1%Z) by lia.
    assert (Hys : y = 0%Z ∨ y = 1%Z) by lia.
    destruct Hxs as [-> | ->], Hys as [-> | ->]; reflexivity.
  - exists out. split; [exact Hout|].
    apply (Hall 1 1)%Z. unfold inCrop. lia.
Defined.

Lemma removeBackground_no_border_background_witness :
  removeBackground 3 3 framedHole = Some framedHole.
Proof.
  apply removeBackground_no_border_background; [lia|lia|].
  intros x y [Hx Hy] Hb. unfold onBorder in Hb.
  assert (Hxs : x = 0%Z ∨ x = 1%Z ∨ x = 2%Z) by lia.
  assert (Hys : y = 0%Z ∨ y = 1%Z ∨ y = 2%Z) by lia.
  destruct Hxs as [-> | [-> | ->]], Hys as [-> | [-> | ->]];
    try reflexivity; lia.
Defined.

(** ** The whole pipeline *)

Section PipelineFacts.
Local Open Scope Z_scope.
Variable ctxOk : bool.
Variables (segCtxOk sCtxOk fCtxOk : nat → bool).
Variable generateId : nat → string.
Variable renderDataUrl : Z → Z → list Z → string.

Local Abbreviation step :=
  (extractStep segCtxOk sCtxOk fCtxOk generateId renderDataUrl).
Local Abbreviation pipeline :=
  (processStickerSheet ctxOk segCtxOk sCtxOk fCtxOk generateId renderDataUrl).

Lemma extractStickerFromRect_total (a b c : bool) (id : string)
    (source : Drawable) (rect : Rect) (name : option string) :
  ∃ result created,
    extractStickerFromRect a b c id renderDataUrl source rect name
    = Some (result, created).
Proof.
  unfold extractStickerFromRect.
  destruct (Z.leb_spec (finalW source rect) 0) as [HW|HW]; simpl; [by eexists _, _|].
  destruct (Z.leb_spec (finalH source rect) 0) as [HH|HH]; simpl; [by eexists _, _|].
  destruct a; simpl; [|by eexists _, _].
  destruct (removeBackground_total (finalW source rect) (finalH source rect)
              (cropPixels source (finalX rect) (finalY rect)
                          (finalW source rect) (finalH source rect)) HW HH)
    as (cutout & -> & _).
  destruct b; simpl; [|by eexists _, _].
  destruct c; simpl; by eexists _, _.
Qed.

Lemma extractStickerFromRect_sticker (id : string)
    (source : Drawable) (rect : Rect) (name : option string) :
  0 < finalW source rect → 0 < finalH source rect →
  ∃ cutout created,
    extractStickerFromRect true true true id renderDataUrl source rect name
    = Some (Some (StickerSegment.mk id
                    (renderDataUrl (finalW source rect) (finalH source rect) cutout)
                    (finalX rect) (finalY rect)
                    (finalW source rect + 12) (finalH source rect + 12)
                    (default "sticker"%string name) false),
            created).
Proof.
  intros HW HH. unfold extractStickerFromRect.
  destruct (Z.leb_spec (finalW source rect) 0); [lia|].
  destruct (Z.leb_spec (finalH source rect) 0); [lia|]. simpl.
  destruct (removeBackground_total (finalW source rect) (finalH source rect)
              (cropPixels source (finalX rect) (finalY rect)
                          (finalW source rect) (finalH source rect)) HW HH)
    as (cutout & -> & _).
  by eexists _, _.
Qed.

Lemma extractAll_total (canvas : Drawable) (items : list (nat * Rect))
    (acc : list StickerSegment.t) :
  ∃ out, foldlM (step canvas) acc items = Some out ∧
         (length out ≤ length acc + length items)%nat.
Proof.
  revert acc. induction items as [|[i rect] items IH]; intros acc.
  - exists acc. split; [done|]. simpl. lia.
  - simpl.
    destruct (extractStickerFromRect_total (segCtxOk i) (sCtxOk i) (fCtxOk i)
                (generateId i) canvas rect
                (Some ("sticker_" +:+ pretty (i + 1)%nat)))
      as ([seg|] & created & ->).
    + destruct (IH (acc ++ [seg])) as (out & -> & Hlen).
      exists out. split; [done|]. rewrite length_app in Hlen. simpl in Hlen. lia.
    + destruct (IH acc) as (out & -> & Hlen).
      exists out. split; [done|]. lia.
Qed.

(** X12: for an image of positive width and height the pipeline always
    settles.  It rejects before any progress message, with
    ["Could not get canvas context"], when the sheet canvas yields no
    context; otherwise it resolves after three progress messages, with at
    most one sticker per merged rectangle: a context that fails during
    an extraction only drops that sticker. *)
Theorem processStickerSheet_settles (image : Drawable) :
  0 < d_width image → 0 < d_height image →
  ∃ messages result,
    pipeline image = Some (messages, result) ∧
    (ctxOk = false →
       messages = [] ∧ result = Rejected "Could not get canvas context") ∧
    (ctxOk = true →
       ∃ rawRects mergedRects finalSegments,
         scanComponents (d_width image) (d_height image) (sheetData image)
           = Some rawRects ∧
         mergeRects rawRects 15 = Some mergedRects ∧
         result = Resolved finalSegments ∧
         length messages = 3%nat ∧
         (length finalSegments ≤ length mergedRects)%nat).
Proof.
  intros HW HH. unfold processStickerSheet. destruct ctxOk; simpl.
  2:{ eexists _, _. split; [done|]. split; [done|]. intros; done. }
  destruct (Z.leb_spec (d_width image) 0); [lia|].
  destruct (Z.leb_spec (d_height image) 0); [lia|]. simpl.
  destruct (scanComponents_inside_sheet (d_width image) (d_height image)
              (sheetData image)) as (rawRects & -> & _). simpl.
  destruct (mergeLoop_total (S (length rawRects)) 15 rawRects)
    as (mergedRects & Hmerge & _); [lia|].
  unfold mergeRects. rewrite Hmerge. simpl.
  destruct (extractAll_total
              (mkDrawable (d_width image) (d_height image) (sheetData image))
              (imap pair mergedRects) []) as (segs & -> & Hlen).
  simpl. eexists _, _. split; [done|]. split; [done|].
  intros _. exists rawRects, mergedRects, segs.
  rewrite length_imap in Hlen. simpl in Hlen. done.
Qed.

Lemma insideSheet_absorb w h a b :
  insideSheet w h a → insideSheet w h b → insideSheet w h (absorb a b).
Proof. unfold insideSheet, absorb. simpl. lia. Qed.

Lemma extractAll_every_rect (canvas : Drawable) (l : list Rect) :
  (∀ i, segCtxOk i = true ∧ sCtxOk i = true ∧ fCtxOk i = true) →
  Forall (insideSheet (d_width canvas) (d_height canvas)) l →
  ∀ (n : nat) (acc : list StickerSegment.t),
  ∃ new,
    foldlM (step canvas) acc (imap (λ i r, ((n + i)%nat, r)) l) = Some (acc ++ new) ∧
    length new = length l ∧
    ∀ i seg, new !! i = Some seg →
      ∃ rect, l !! i = Some rect ∧
        StickerSegment.name seg = "sticker_" +:+ pretty (n + i + 1)%nat ∧
        StickerSegment.id seg = generateId (n + i)%nat ∧
        StickerSegment.originalX seg = finalX rect ∧
        StickerSegment.originalY seg = finalY rect ∧
        StickerSegment.width seg = finalW canvas rect + 12 ∧
        StickerSegment.height seg = finalH canvas rect + 12 ∧
        StickerSegment.isNaming seg = false.
Proof.
  intros Hctx Hall. induction Hall as [|rect l Hrect _ IH]; intros n acc.
  - exists []. simpl. rewrite app_nil_r. split; [done|]. split; [done|].
    intros i seg Hi. by rewrite lookup_nil in Hi.
  - rewrite imap_cons. cbn [foldlM]. unfold extractStep at 1.
    rewrite Nat.add_0_r.
    destruct (Hctx n) as (-> & -> & ->).
    destruct (extractStickerFromRect_sticker (generateId n) canvas rect
                (Some ("sticker_" +:+ pretty (n + 1)%nat)))
      as (cutout & created & ->).
    { unfold insideSheet in Hrect. unfold finalW, finalX, padding. lia. }
    { unfold insideSheet in Hrect. unfold finalH, finalY, padding. lia. }
    destruct (IH (S n) (acc ++ [StickerSegment.mk (generateId n)
                (renderDataUrl (finalW canvas rect) (finalH canvas rect) cutout)
                (finalX rect) (finalY rect)
                (finalW canvas rect + 12) (finalH canvas rect + 12)
                (default "sticker"%string (Some ("sticker_" +:+ pretty (n + 1)%nat)))
                false])) as (new & Hrun & Hlen & Hnew).
    eexists (_ :: new). split; [|split].
    + rewrite (imap_ext _ (λ i r, ((S n + i)%nat, r))); [|intros; simpl; f_equal; lia].
      rewrite Hrun. by rewrite <- app_assoc.
    + simpl. by rewrite Hlen.
    + intros [|i] seg Hi; simpl in Hi.
      * injection Hi as <-. exists rect. rewrite Nat.add_0_r. simpl. done.
      * destruct (Hnew i seg Hi) as (r & Hr & Hname & Hid & Hrest).
        exists r. split; [done|].
        replace (n + S i)%nat with (S n + i)%nat by lia. done.
Qed.

(** X13: for an image of positive width and height, when every canvas
    yields its context, the pipeline returns
    exactly one sticker for each merged rectangle, in order: the sticker at
    position [i] is named [sticker_<i+1>], sits at the crop offset of the
    rectangle at position [i], is 12 pixels larger than its crop in each
    dimension and is not being named. *)
Theorem processStickerSheet_one_sticker_per_rect (image : Drawable) :
  ctxOk = true → 0 < d_width image → 0 < d_height image →
  (∀ i, segCtxOk i = true ∧ sCtxOk i = true ∧ fCtxOk i = true) →
  ∃ messages rawRects mergedRects finalSegments,
    scanComponents (d_width image) (d_height image) (sheetData image)
      = Some rawRects ∧
    mergeRects rawRects 15 = Some mergedRects ∧
    pipeline image = Some (messages, Resolved finalSegments) ∧
    length finalSegments = length mergedRects ∧
    ∀ i seg, finalSegments !! i = Some seg →
      ∃ rect, mergedRects !! i = Some rect ∧
        StickerSegment.name seg = "sticker_" +:+ pretty (i + 1)%nat ∧
        StickerSegment.originalX seg = finalX rect ∧
        StickerSegment.originalY seg = finalY rect ∧
        StickerSegment.width seg =
          Z.min (d_width image - finalX rect) (maxX rect - minX rect + 4) + 12 ∧
        StickerSegment.height seg =
          Z.min (d_height image - finalY rect) (maxY rect - minY rect + 4) + 12 ∧
        StickerSegment.isNaming seg = false.
Proof.
  intros Hctx0 HW HH Hctx. unfold processStickerSheet. rewrite Hctx0. simpl.
  destruct (Z.leb_spec (d_width image) 0); [lia|].
  destruct (Z.leb_spec (d_height image) 0); [lia|]. simpl.
  destruct (scanComponents_inside_sheet (d_width image) (d_height image)
              (sheetData image)) as (rawRects & -> & Hraw). simpl.
  destruct (mergeLoop_total (S (length rawRects)) 15 rawRects)
    as (mergedRects & Hmerge & _); [lia|].
  pose proof (mergeLoop_Forall _ (insideSheet_absorb (d_width image) (d_height image))
                _ _ _ _ Hraw Hmerge) as Hmerged.
  unfold mergeRects. rewrite Hmerge. simpl.
  destruct (extractAll_every_rect
              (mkDrawable (d_width image) (d_height image) (sheetData image))
              mergedRects Hctx Hmerged 0 []) as (new & Hrun & Hlen & Hnew).
  rewrite (imap_ext _ (λ i r, ((0 + i)%nat, r))) by done.
  rewrite Hrun. simpl.
  eexists _, rawRects, mergedRects, new. split; [done|]. split; [done|].
  split; [done|]. split; [done|].
  intros i seg Hi. destruct (Hnew i seg Hi)
    as (rect & Hr & Hname & _ & Hx & Hy & Hw & Hh & Hnaming).
  exists rect. split; [done|]. simpl in Hname. split; [done|].
  split; [done|]. split; [done|]. split; [exact Hw|]. split; [exact Hh|done].
Qed.

(** X14: a sheet of positive width and height that is background
    everywhere is no error: the pipeline reports 0 components and 0
    stickers and resolves with the empty list. *)
Theorem processStickerSheet_blank_sheet (image : Drawable) :
  ctxOk = true → 0 < d_width image → 0 < d_height image →
  (∀ x y, inSheet (d_width image) (d_height image) x y →
          isBackgroundAt (sheetData image) (getIdx (d_width image) x y) = true) →
  pipeline image =
    Some (["Scanning image for content...";
           "Detected 0 components. Grouping...";
           "Identified 0 stickers. Extracting..."]%string,
          Resolved []).
Proof.
  intros Hctx0 HW HH Hblank. unfold processStickerSheet. rewrite Hctx0. simpl.
  destruct (Z.leb_spec (d_width image) 0); [lia|].
  destruct (Z.leb_spec (d_height image) 0); [lia|]. simpl.
  assert (scanComponents (d_width image) (d_height image) (sheetData image)
          = Some []) as ->; [|done].
  unfold scanComponents.
  destruct (scanComponents_inv (d_width image) (d_height image) (sheetData image))
    as (V & R & -> & [_ Hsound _ _ Hrects]).
  simpl. f_equal. destruct R as [|r R]; [done|]. exfalso.
  destruct (proj1 (Hrects r)) as (sx & sy & l & Hin & Hm & _); [by left|].
  apply Hsound in Hm as [_ Hf]; [|done]. rewrite Hblank in Hf; done.
Qed.

End PipelineFacts.

Lemma processStickerSheet_settles_witness :
  ∃ messages finalSegments,
    processStickerSheet true (λ _, true) (λ _, true) (λ _, false) pretty
      (λ _ _ _, "data:image/png;base64,AAAA"%string) blackSquare
    = Some (messages, Resolved finalSegments) ∧
    length messages = 3%nat ∧ (length finalSegments ≤ 1)%nat.
Proof.
  destruct (processStickerSheet_settles true
              (λ _, true) (λ _, true) (λ _, false) pretty
              (λ _ _ _, "data:image/png;base64,AAAA"%string) blackSquare)
    as (messages & result & Hrun & _ & Hok).
  - simpl. lia.
  - simpl. lia.
  - destruct (Hok eq_refl)
      as (rawRects & mergedRects & segs & Hscan & Hmerge & -> & Hmsg & Hlen).
    vm_compute in Hscan. injection Hscan as <-.
    vm_compute in Hmerge. injection Hmerge as <-.
    exists messages, segs. split; [exact Hrun|]. split; [exact Hmsg|exact Hlen].
Defined.

Lemma processStickerSheet_one_sticker_per_rect_witness :
  ∃ messages seg,
    processStickerSheet true (λ _, true) (λ _, true) (λ _, true) pretty
      (λ _ _ _, "data:image/png;base64,AAAA"%string) blackSquare
    = Some (messages, Resolved [seg]) ∧
    StickerSegment.name seg = "sticker_1"%string ∧
    StickerSegment.width seg = 20%Z.
Proof.
  destruct (processStickerSheet_one_sticker_per_rect true
              (λ _, true) (λ _, true) (λ _, true) pretty
              (λ _ _ _, "data:image/png;base64,AAAA"%string) blackSquare)
    as (messages & rawRects & mergedRects & segs & Hscan & Hmerge & Hrun & Hlen & Hall).
  - reflexivity.
  - simpl. lia.
  - simpl. lia.
  - done.
  - vm_compute in Hscan. injection Hscan as <-.
    vm_compute in Hmerge. injection Hmerge as <-.
    destruct segs as [|seg [|]]; try discriminate Hlen.
    exists messages, seg. split; [exact Hrun|].
    destruct (Hall 0%nat seg eq_refl) as (rect & Hrect & Hname & _ & _ & Hw & _).
    injection Hrect as <-. split; [exact Hname|exact Hw].
Defined.

Lemma processStickerSheet_blank_sheet_witness :
  processStickerSheet true (λ _, true) (λ _, true) (λ _, true) pretty
    (λ _ _ _, "data:image/png;base64,AAAA"%string) whiteSheet
  = Some (["Scanning image for content...";
           "Detected 0 components. Grouping...";
           "Identified 0 stickers. Extracting..."]%string,
          Resolved []).
Proof.
  apply processStickerSheet_blank_sheet.
  - reflexivity.
  - simpl. lia.
  - simpl. lia.
  - intros x y [Hx Hy]. simpl in Hx, Hy.
    assert (Hxs : x = 0%Z ∨ x = 1%Z) by lia.
    assert (Hys : y = 0%Z ∨ y = 1%Z) by lia.
    destruct Hxs as [-> | ->], Hys as [-> | ->]; reflexivity.
Defined.

(** ** The names of the archive entries *)

Section ArchiveFacts.

Lemma string_length_app (s t : string) :
  String.length (s +:+ t) = (String.length s + String.length t)%nat.
Proof. induction s as [|a s IH]; simpl; [done|]. by rewrite IH. Qed.

Lemma string_app_cancel_r (s1 s2 t : string) :
  s1 +:+ t = s2 +:+ t → s1 = s2.
Proof.
  revert s2. induction s1 as [|a s1 IH]; intros [|b s2] Heq; simpl in Heq.
  - done.
  - apply (f_equal String.length) in Heq.
    change (String.length t = S (String.length (s2 +:+ t))) in Heq.
    rewrite string_length_app in Heq. lia.
  - apply (f_equal String.length) in Heq.
    change (S (String.length (s1 +:+ t)) = String.length t) in Heq.
    rewrite string_length_app in Heq. lia.
  - injection Heq as -> Heq. f_equal. by apply IH.
Qed.

Lemma candidate_inj (name : string) (j k : nat) :
  candidate name j = candidate name k → j = k.
Proof.
  destruct j as [|j], k as [|k]; simpl; intros Heq; [done| | |].
  - apply (f_equal String.length) in Heq.
    rewrite string_length_app in Heq. simpl in Heq. lia.
  - apply (f_equal String.length) in Heq.
    rewrite string_length_app in Heq. simpl in Heq. lia.
  - apply (inj (String.append name)) in Heq.
    apply (inj (String.append "_")) in Heq.
    by apply (inj pretty) in Heq.
Qed.

Lemma freeName_first_free (usedNames : gset string) (name : string) :
  ∀ (fuel c : nat) (S0 : gset string),
    (∀ k, (c ≤ k)%nat → candidate name k ∈ usedNames → candidate name k ∈ S0) →
    (size S0 < fuel)%nat →
    ∃ k, (c ≤ k)%nat ∧
      freeName fuel usedNames name (candidate name c) (S c) = Some (candidate name k) ∧
      candidate name k ∉ usedNames ∧
      ∀ j, (c ≤ j < k)%nat → candidate name j ∈ usedNames.
Proof.
  induction fuel as [|fuel IH]; intros c S0 Hin Hsize; [lia|].
  simpl. destruct (decide (candidate name c ∈ usedNames)) as [Hused|Hfree].
  - destruct (IH (S c) (S0 ∖ {[candidate name c]})) as (k & Hk & Hrun & Hfree & Hbusy).
    + intros k Hk Hku. apply elem_of_difference. split; [apply Hin; [lia|done]|].
      rewrite elem_of_singleton. intros Heq. apply candidate_inj in Heq. lia.
    + assert (candidate name c ∈ S0) as HcS by (apply Hin; [lia|done]).
      pose proof (size_difference S0 {[candidate name c]}) as Hd.
      rewrite size_singleton in Hd.
      assert (size S0 ≠ 0%nat).
      { intros H0. apply size_empty_inv in H0. set_solver. }
      rewrite Hd by set_solver. lia.
    + exists k. split; [lia|]. split; [exact Hrun|]. split; [done|].
      intros j Hj. destruct (decide (j = c)) as [->|]; [done|]. apply Hbusy. lia.
  - exists c. split; [lia|]. split; [done|]. split; [done|]. intros j Hj. lia.
Qed.

Lemma freeName_total (usedNames : gset string) (name : string) :
  ∃ k, freeName (S (size usedNames)) usedNames name name 1 = Some (candidate name k) ∧
       candidate name k ∉ usedNames ∧
       ∀ j, (j < k)%nat → candidate name j ∈ usedNames.
Proof.
  destruct (freeName_first_free usedNames name (S (size usedNames)) 0 usedNames)
    as (k & _ & Hrun & Hfree & Hbusy); [done|lia|].
  exists k. split; [exact Hrun|]. split; [done|]. intros j Hj. apply Hbusy. lia.
Qed.

Lemma addFiles_spec (segments : list StickerSegment.t) :
  ∀ (usedNames : gset string) (files : list (string * option string)),
  ∃ chosen usedNames',
    foldlM addFile (usedNames, files) segments
      = Some (usedNames', files ++ zip_with entry chosen segments) ∧
    length chosen = length segments ∧
    NoDup chosen ∧
    (∀ f, f ∈ chosen → f ∉ usedNames) ∧
    Forall2 (λ f seg, ∃ k, f = candidate (StickerSegment.name seg) k) chosen segments.
Proof.
  induction segments as [|seg segments IH]; intros usedNames files.
  - exists [], usedNames. simpl. rewrite app_nil_r.
    split; [done|]. split; [done|]. split; [constructor|].
    split; [|constructor]. intros f Hf. by apply elem_of_nil in Hf.
  - cbn [foldlM]. unfold addFile at 1.
    destruct (freeName_total usedNames (StickerSegment.name seg))
      as (k & -> & Hfree & _).
    simpl.
    destruct (IH ({[candidate (StickerSegment.name seg) k]} ∪ usedNames)
                 (files ++ [entry (candidate (StickerSegment.name seg) k) seg]))
      as (chosen & usedNames' & Hrun & Hlen & Hnodup & Hfresh & Hshape).
    exists (candidate (StickerSegment.name seg) k :: chosen), usedNames'.
    split; [|split; [|split; [|split]]].
    + unfold entry in Hrun at 1. rewrite Hrun. simpl. by rewrite <- app_assoc.
    + simpl. by rewrite Hlen.
    + constructor; [|done]. intros Hin. apply Hfresh in Hin. set_solver.
    + intros f [->|Hin]%elem_of_cons; [done|]. apply Hfresh in Hin. set_solver.
    + constructor; [by exists k|done].
Qed.

(** X15: building the archive always succeeds and makes one entry per
    sticker, in order, holding the second comma-separated field of the
    sticker's data URL.  Each entry is called [<name>.png] or
    [<name>_<k>.png] for the sticker's name and some counter [k >= 1], and no two entries have the
    same name, whatever the stickers are called. *)
Theorem zipFiles_distinct_names (segments : list StickerSegment.t) :
  ∃ files,
    zipFiles segments = Some files ∧
    length files = length segments ∧
    NoDup files.*1 ∧
    ∀ i seg, segments !! i = Some seg →
      ∃ fileName,
        files !! i = Some (fileName +:+ ".png",
                           secondField (StickerSegment.dataUrl seg)) ∧
        (fileName = StickerSegment.name seg ∨
         ∃ k, (1 ≤ k)%nat ∧
              fileName = StickerSegment.name seg +:+ "_" +:+ pretty k).
Proof.
  destruct (addFiles_spec segments ∅ [])
    as (chosen & usedNames' & Hrun & Hlen & Hnodup & _ & Hshape).
  unfold zipFiles. rewrite Hrun. simpl.
  exists (zip_with entry chosen segments). split; [done|].
  split; [|split].
  - rewrite length_zip_with. lia.
  - assert ((zip_with entry chosen segments).*1 = (λ f, f +:+ ".png") <$> chosen) as ->.
    { clear -Hlen. revert segments Hlen.
      induction chosen as [|f chosen IH]; intros [|seg segments] Hlen;
        simpl in *; try done.
      f_equal. apply IH. lia. }
    apply NoDup_fmap_2; [|done]. intros f1 f2 Heq.
    by apply string_app_cancel_r in Heq.
  - intros i seg Hi.
    destruct (Forall2_lookup_r _ _ _ _ _ Hshape Hi) as (f & Hf & k & Hk).
    exists f. split.
    + rewrite lookup_zip_with, Hf. simpl. by rewrite Hi.
    + subst f. destruct k as [|k]; [by left|right].
      exists (S k). split; [lia|done].
Qed.

Lemma addFiles_distinct (segments : list StickerSegment.t) :
  ∀ (usedNames : gset string) (files : list (string * option string)),
    NoDup (StickerSegment.name <$> segments) →
    (∀ seg, seg ∈ segments → StickerSegment.name seg ∉ usedNames) →
    ∃ usedNames',
      foldlM addFile (usedNames, files) segments
      = Some (usedNames',
              files ++ ((λ seg, entry (StickerSegment.name seg) seg) <$> segments)).
Proof.
  induction segments as [|seg segments IH]; intros usedNames files Hnodup Hfresh.
  - exists usedNames. simpl. by rewrite app_nil_r.
  - cbn [foldlM]. unfold addFile at 1.
    destruct (freeName_total usedNames (StickerSegment.name seg))
      as (k & -> & _ & Hbusy).
    assert (k = 0%nat) as ->.
    { destruct k as [|k]; [done|]. exfalso.
      apply (Hfresh seg); [by left|]. apply (Hbusy 0%nat). lia. }
    simpl. rewrite fmap_cons in Hnodup. apply NoDup_cons in Hnodup as [Hnotin Hnodup].
    destruct (IH ({[StickerSegment.name seg]} ∪ usedNames)
                 (files ++ [entry (StickerSegment.name seg) seg]) Hnodup)
      as (usedNames' & Hrun).
    + intros seg' Hin. apply not_elem_of_union. split; [|apply Hfresh; by right].
      rewrite elem_of_singleton. intros Heq. apply Hnotin.
      rewrite <- Heq. apply list_elem_of_fmap. by exists seg'.
    + exists usedNames'. unfold entry in Hrun at 1. rewrite Hrun.
      by rewrite <- app_assoc.
Qed.

(** X16: when the stickers already have pairwise different names, every
    entry of the archive is called exactly [<name>.png]: no counter is
    appended. *)
Theorem zipFiles_keeps_distinct_names (segments : list StickerSegment.t) :
  NoDup (StickerSegment.name <$> segments) →
  zipFiles segments =
    Some ((λ seg, (StickerSegment.name seg +:+ ".png",
                   secondField (StickerSegment.dataUrl seg))) <$> segments).
Proof.
  intros Hnodup.
  destruct (addFiles_distinct segments ∅ [] Hnodup) as (usedNames' & Hrun).
  { intros seg _. apply not_elem_of_empty. }
  unfold zipFiles. by rewrite Hrun.
Qed.

(** X17: a sticker whose name is already taken gets the smallest counter
    that makes its entry new: the loop returns the first name among
    [name], [name_1], [name_2], ... that is not in use, within the
    [size usedNames + 1] iterations it is given. *)
Theorem freeName_smallest_counter (usedNames : gset string) (name : string) :
  ∃ k,
    freeName (S (size usedNames)) usedNames name name 1
      = Some (if decide (k = 0%nat) then name else name +:+ "_" +:+ pretty k) ∧
    (k ≤ size usedNames)%nat ∧
    (if decide (k = 0%nat) then name else name +:+ "_" +:+ pretty k) ∉ usedNames ∧
    (0 < k → name ∈ usedNames)%nat ∧
    ∀ j, (1 ≤ j < k)%nat → name +:+ "_" +:+ pretty j ∈ usedNames.
Proof.
  destruct (freeName_total usedNames name) as (k & Hrun & Hfree & Hbusy).
  assert (∀ j, candidate name j =
               if decide (j = 0%nat) then name else name +:+ "_" +:+ pretty j) as Hc.
  { intros [|j]; done. }
  exists k. rewrite <- Hc. split; [done|]. split; [|split; [done|split]].
  - assert (size (list_to_set (C:=gset string) (candidate name <$> seq 0 k)) = k) as Hk.
    { rewrite size_list_to_set.
      - by rewrite length_fmap, length_seq.
      - apply NoDup_fmap_2; [|apply NoDup_seq]. intros ??. apply candidate_inj. }
    rewrite <- Hk. apply subseteq_size. intros f.
    rewrite elem_of_list_to_set, list_elem_of_fmap.
    intros (j & -> & Hj%elem_of_seq). apply Hbusy. lia.
  - intros Hk. apply (Hbusy 0%nat). lia.
  - intros j Hj. specialize (Hbusy j). destruct j as [|j]; [lia|]. apply Hbusy. lia.
Qed.

End ArchiveFacts.

Lemma zipFiles_keeps_distinct_names_witness :
  zipFiles catAndDog
  = Some [("cat.png", Some "AAAA"); ("dog.png", Some "BBBB")]%string.
Proof.
  apply (zipFiles_keeps_distinct_names catAndDog).
  simpl. apply NoDup_cons_2; [|apply NoDup_singleton].
  rewrite list_elem_of_singleton. discriminate.
Defined.

(** ** Data URLs and the image service *)

Lemma afterComma_app (a b : string) :
  afterComma a = None → afterComma (a +:+ b) = afterComma b.
Proof.
  induction a as [|c a IH]; simpl; [done|].
  destruct (decide (c = ","%char)); [done|exact IH].
Qed.

Lemma beforeComma_commaFree (s : string) :
  afterComma s = None → beforeComma s = s.
Proof.
  induction s as [|c s IH]; simpl; [done|].
  destruct (decide (c = ","%char)); [done|]. intros Hs. by rewrite IH.
Qed.

(** X18: the URL format that [generateStickerSheet] builds and the
    [split(',')[1]] that the services and the archive apply to data URLs
    fit together: when neither the MIME type nor the payload contains a
    comma, the second field of [data:<mime>;base64,<payload>] is the
    payload. *)
Theorem secondField_dataUrlOf (mime payload : string) :
  afterComma mime = None → afterComma payload = None →
  secondField (dataUrlOf mime payload) = Some payload.
Proof.
  intros Hm Hp. unfold secondField, dataUrlOf.
  change (afterComma ("data:" +:+ mime +:+ ";base64," +:+ payload))
    with (afterComma (mime +:+ ";base64," +:+ payload)).
  rewrite afterComma_app by done.
  change (afterComma (";base64," +:+ payload)) with (Some payload).
  simpl. by rewrite beforeComma_commaFree.
Qed.

Lemma secondField_dataUrlOf_witness :
  secondField (dataUrlOf "image/png" "iVBORw0KGgo=") = Some "iVBORw0KGgo="%string.
Proof. apply secondField_dataUrlOf; reflexivity. Defined.

Section GenerationFacts.
Variables (envKey storedKey : option string).
Variable generateContent : string → option string → SheetCall.

Local Abbreviation sheet_of :=
  (generateStickerSheet envKey storedKey generateContent).

Lemma firstImage_data_url (parts : list (option InlineData)) (url : string) :
  firstImage parts = Some url →
  ∃ inline mime,
    mime ≠ ""%string ∧
    (nonEmpty (mimeType inline) = Some mime ∨
     nonEmpty (mimeType inline) = None ∧ mime = "image/png"%string) ∧
    url = dataUrlOf mime (default "undefined"%string (inlineBytes inline)) ∧
    ∃ k, parts !! k = Some (Some inline) ∧ ∀ j, (j < k)%nat → parts !! j = Some None.
Proof.
  induction parts as [|[inline|] parts IH]; simpl; intros Hurl; [done| |].
  - injection Hurl as <-. exists inline.
    destruct (mimeType inline) as [m|] eqn:Hm; simpl.
    + destruct (decide (m = ""%string)) as [->|Hne]; simpl.
      * exists "image/png"%string. split; [done|]. split; [by right|].
        split; [done|]. exists 0%nat. split; [done|]. intros j Hj. lia.
      * exists m. split; [done|]. split; [by left|].
        split; [done|]. exists 0%nat. split; [done|]. intros j Hj. lia.
    + exists "image/png"%string. split; [done|]. split; [by right|].
      split; [done|]. exists 0%nat. split; [done|]. intros j Hj. lia.
  - destruct (IH Hurl) as (inline & mime & Hne & Hmime & Hu & k & Hk & Hbefore).
    exists inline, mime. split; [done|]. split; [done|]. split; [done|].
    exists (S k). split; [done|]. intros [|j] Hj; [done|]. simpl. apply Hbefore. lia.
Qed.

(** X19: whatever [generateStickerSheet] returns is a data URL
    [data:<mime>;base64,<data>] built from the first part of the first
    candidate that carries inline data, with a non-empty MIME type
    ([image/png] when the part has none); it returns only when a key was
    found and the service answered. *)
Theorem generateStickerSheet_returns_data_url
    (referenceImage : string) (manualStyle userApiKey : option string) (v : JSValue) :
  sheet_of referenceImage manualStyle userApiKey = Returns v →
  is_Some (getAiClient envKey storedKey userApiKey) ∧
  ∃ payload candidates parts inline mime k,
    generateContent payload manualStyle = SheetResponds (Some (Some parts :: candidates)) ∧
    parts !! k = Some (Some inline) ∧
    (∀ j, (j < k)%nat → parts !! j = Some None) ∧
    mime ≠ ""%string ∧
    (nonEmpty (mimeType inline) = Some mime ∨
     nonEmpty (mimeType inline) = None ∧ mime = "image/png"%string) ∧
    v = JStr (dataUrlOf mime (default "undefined"%string (inlineBytes inline))).
Proof.
  unfold generateStickerSheet.
  destruct (getAiClient envKey storedKey userApiKey) as [ai|]; [|done].
  intros Hret. split; [by eexists|].
  destruct (generateContent _ manualStyle) as [e|candidates] eqn:Hcall; [done|].
  destruct candidates as [[|[parts|] candidates]|]; simpl in Hret; try done.
  destruct (firstImage parts) as [url|] eqn:Hfirst; simpl in Hret; [|done].
  injection Hret as <-.
  destruct (firstImage_data_url parts url Hfirst)
    as (inline & mime & Hne & Hmime & -> & k & Hk & Hbefore).
  by eexists _, candidates, parts, inline, mime, k.
Qed.

(** X20: the [data:...;base64,] prefix of the reference image is
    optional: a data URL and its bare payload, neither part containing a
    comma, give the same outcome. *)
Theorem generateStickerSheet_strips_prefix
    (mime payload : string) (manualStyle userApiKey : option string) :
  afterComma mime = None → afterComma payload = None →
  sheet_of (dataUrlOf mime payload) manualStyle userApiKey
  = sheet_of payload manualStyle userApiKey.
Proof.
  intros Hm Hp. unfold generateStickerSheet.
  assert (secondField (dataUrlOf mime payload) = Some payload) as ->.
  { unfold secondField, dataUrlOf.
    change (afterComma ("data:" +:+ mime +:+ ";base64," +:+ payload))
      with (afterComma (mime +:+ ";base64," +:+ payload)).
    rewrite afterComma_app by done.
    change (afterComma (";base64," +:+ payload)) with (Some payload).
    simpl. by rewrite beforeComma_commaFree. }
  unfold secondField. by rewrite Hp.
Qed.

(** X21: the error of the remote call is never swallowed, and a response
    without inline data is an error: with a key, a call that throws [e]
    makes [generateStickerSheet] throw [e], and a response whose first
    candidate has no parts, or only parts without inline data, makes it
    throw ["No image returned from generation"]; without any key it
    throws ["API_KEY is not set"] whatever the service would do. *)
Theorem generateStickerSheet_throws
    (referenceImage : string) (manualStyle userApiKey : option string) :
  (getAiClient envKey storedKey userApiKey = None →
     sheet_of referenceImage manualStyle userApiKey = Throws "API_KEY is not set") ∧
  (is_Some (getAiClient envKey storedKey userApiKey) →
     ∃ payload,
       (payload = referenceImage ∨ secondField referenceImage = Some payload) ∧
       (∀ e, generateContent payload manualStyle = SheetThrows e →
          sheet_of referenceImage manualStyle userApiKey = Throws e) ∧
       (∀ candidates,
          generateContent payload manualStyle = SheetResponds candidates →
          (∀ parts rest, candidates = Some (Some parts :: rest) →
                         Forall (λ part, part = None) parts) →
          sheet_of referenceImage manualStyle userApiKey
          = Throws "No image returned from generation")).
Proof.
  unfold generateStickerSheet. split; [by intros ->|]. intros [ai ->].
  exists (match secondField referenceImage with
          | Some field => field
          | None => referenceImage
          end).
  split; [|split].
  - destruct (secondField referenceImage) as [field|]; [by right|by left].
  - by intros e ->.
  - intros candidates -> Hnone.
    destruct candidates as [[|[parts|] rest]|]; simpl; try done.
    specialize (Hnone parts rest eq_refl).
    assert (firstImage parts = None) as ->; [|done].
    induction Hnone as [|part parts -> _ IH]; simpl; done.
Qed.

End GenerationFacts.

Lemma generateStickerSheet_returns_data_url_witness :
  generateStickerSheet None None echoService "AAAA" None (Some "key"%string)
    = Returns (JStr "data:image/png;base64,AAAA") ∧
  is_Some (getAiClient None None (Some "key"%string)).
Proof.
  split; [reflexivity|].
  apply (generateStickerSheet_returns_data_url None None echoService
           "AAAA" None (Some "key"%string) (JStr "data:image/png;base64,AAAA")).
  reflexivity.
Defined.

Lemma generateStickerSheet_strips_prefix_witness :
  generateStickerSheet None None echoService
    (dataUrlOf "image/jpeg" "AAAA") None (Some "key"%string)
  = generateStickerSheet None None echoService "AAAA" None (Some "key"%string).
Proof. apply generateStickerSheet_strips_prefix; reflexivity. Defined.

(** ** The credential *)

Section CredentialFacts.
Variables (envKey storedKey : option string).

(** X22: a client is built exactly when one of the passed key, the
    environment key and the stored key is a non-empty string, and then
    from the first non-empty one in that order: an empty passed key falls
    through to the next source, and the client never holds an empty
    key. *)
Theorem getAiClient_first_nonempty (passedKey : option string) :
  getAiClient envKey storedKey passedKey
  = head (omap (λ k, nonEmpty k) [passedKey; envKey; storedKey]) ∧
  (getAiClient envKey storedKey passedKey = None ↔
     Forall (λ k, k = None ∨ k = Some ""%string) [passedKey; envKey; storedKey]) ∧
  (∀ k, getAiClient envKey storedKey passedKey = Some k → k ≠ ""%string).
Proof.
  assert (∀ k, nonEmpty k = None ↔ (k = None ∨ k = Some ""%string)) as Hnone.
  { intros [s|]; simpl; [|naive_solver].
    destruct (decide (s = ""%string)); naive_solver. }
  assert (∀ k s, nonEmpty k = Some s → s ≠ ""%string) as Hsome.
  { intros [s'|] s; simpl; [|done].
    destruct (decide (s' = ""%string)); [done|]. by intros [= <-]. }
  unfold getAiClient. split; [|split].
  - simpl. destruct (nonEmpty passedKey); [done|].
    destruct (nonEmpty envKey); [done|]. by destruct (nonEmpty storedKey).
  - rewrite !Forall_cons, Forall_nil, <- !Hnone.
    destruct (nonEmpty passedKey); [naive_solver|].
    destruct (nonEmpty envKey); naive_solver.
  - intros k.
    destruct (nonEmpty passedKey) eqn:H1; [intros [= <-]; by eapply Hsome|].
    destruct (nonEmpty envKey) eqn:H2; [intros [= <-]; by eapply Hsome|].
    apply Hsome.
Qed.

Variables (envRead storedRead : Lookup).
Variable generateContent : option string → CallResult.
Variable JSON_parse : string → option JSValue.

(** X23: whenever [generateStickerName] returns, the value is truthy:
    never the empty string, [undefined], [null], [false] or 0.  It
    rejects only when no key was passed and one of the two credential
    reads made before the [try] block throws, and then with that
    exception: no error of the remote call, of [JSON.parse] or of reading
    [filename] gets out. *)
Theorem generateStickerName_truthy (base64Image : string) (userApiKey : option string) :
  match generateStickerName envRead storedRead generateContent JSON_parse
          base64Image userApiKey with
  | Returns v => jsTruthy v = true
  | Throws e =>
      nonEmpty userApiKey = None ∧
      (envRead = LookupThrows e ∨
       ∃ env, envRead = LookupGives env ∧ nonEmpty env = None ∧
              storedRead = LookupThrows e)
  end.
Proof.
  unfold generateStickerName, evalGetAiClient.
  destruct (nonEmpty userApiKey) as [k|] eqn:Hk.
  - unfold namingAttempt.
    destruct (generateContent _) as [e|text]; [done|].
    destruct (nonEmpty text) as [t|]; [|done].
    destruct (JSON_parse t) as [data|]; [|done].
    destruct (getFilename data) as [filename|]; [|done].
    by destruct (jsTruthy filename) eqn:Ht.
  - destruct envRead as [e|env]; [by split; [|left]|].
    destruct (nonEmpty env) as [k|] eqn:Henv.
    + unfold namingAttempt.
      destruct (generateContent _) as [e|text]; [done|].
      destruct (nonEmpty text) as [t|]; [|done].
      destruct (JSON_parse t) as [data|]; [|done].
      destruct (getFilename data) as [filename|]; [|done].
      by destruct (jsTruthy filename) eqn:Ht.
    + destruct storedRead as [e|stored].
      { split; [done|]. right. by exists env. }
      destruct (nonEmpty stored) as [k|]; [|done].
      unfold namingAttempt.
      destruct (generateContent _) as [e|text]; [done|].
      destruct (nonEmpty text) as [t|]; [|done].
      destruct (JSON_parse t) as [data|]; [|done].
      destruct (getFilename data) as [filename|]; [|done].
      by destruct (jsTruthy filename) eqn:Ht.
Qed.

End CredentialFacts.

(** ** The naming batches *)

Section BatchFacts.
Context {A : Type}.

Lemma batchesFrom_spec (itemsToName : list A) :
  ∀ (fuel i : nat),
    (length itemsToName - i + 3 ≤ 3 * fuel)%nat →
    ∃ bs,
      batchesFrom fuel i itemsToName = Some bs ∧
      concat bs = drop i itemsToName ∧
      length bs = ((length itemsToName - i + 2) / 3)%nat ∧
      ∀ k b, bs !! k = Some b → b = take 3 (drop (i + 3 * k) itemsToName).
Proof.
  induction fuel as [|fuel IH]; intros i Hfuel; [lia|].
  cbn [batchesFrom]. destruct (decide (i < length itemsToName)%nat) as [Hlt|Hge].
  - destruct (IH (i + batchSize)%nat) as (bs & -> & Hcat & Hlen & Hk).
    { unfold batchSize. lia. }
    exists (take batchSize (drop i itemsToName) :: bs).
    split; [done|]. split; [|split].
    + cbn [concat]. rewrite Hcat. unfold batchSize.
      rewrite <- drop_drop. apply take_drop.
    + cbn [length]. rewrite Hlen. unfold batchSize.
      destruct (decide (i + 3 ≤ length itemsToName)%nat).
      * replace (length itemsToName - i + 2)%nat
          with (1 * 3 + (length itemsToName - (i + 3) + 2))%nat by lia.
        rewrite Nat.div_add_l by done. lia.
      * replace (length itemsToName - (i + 3))%nat with 0%nat by lia.
        assert (length itemsToName - i = 1 ∨ length itemsToName - i = 2)%nat
          as [-> | ->] by lia; done.
    + intros [|k] b Hb; simpl in Hb.
      * injection Hb as <-. unfold batchSize. by rewrite Nat.add_0_r.
      * apply Hk in Hb. rewrite Hb. unfold batchSize. do 2 f_equal. lia.
  - exists []. split; [done|]. split; [|split].
    + rewrite drop_ge; [done|lia].
    + replace (length itemsToName - i)%nat with 0%nat by lia. done.
    + intros k b Hb. by rewrite lookup_nil in Hb.
Qed.

(** X24: the naming loop hands every sticker to exactly one batch, in
    order: the batches concatenate to the list of stickers, there are
    ceil(n / 3) of them, batch [k] holds the stickers from position [3k]
    on, and every batch has between one and three stickers. *)
Theorem batches_partition (itemsToName : list A) :
  ∃ bs,
    batches itemsToName = Some bs ∧
    concat bs = itemsToName ∧
    length bs = ((length itemsToName + 2) / 3)%nat ∧
    ∀ k b, bs !! k = Some b →
      b = take 3 (drop (3 * k) itemsToName) ∧ (1 ≤ length b ≤ 3)%nat.
Proof.
  destruct (batchesFrom_spec itemsToName (S (length itemsToName)) 0)
    as (bs & Hrun & Hcat & Hlen & Hk); [lia|].
  exists bs. split; [exact Hrun|]. split; [by rewrite Hcat|].
  rewrite Nat.sub_0_r in Hlen. split; [done|].
  intros k b Hb. pose proof (lookup_lt_Some _ _ _ Hb) as Hlt.
  apply Hk in Hb. simpl in Hb. split; [done|].
  rewrite Hb, length_take, length_drop.
  assert (3 * k < length itemsToName)%nat; [|lia].
  rewrite Hlen in Hlt.
  pose proof (Nat.div_mod_eq (length itemsToName + 2) 3) as Hd.
  pose proof (Nat.mod_upper_bound (length itemsToName + 2) 3). lia.
Qed.

End BatchFacts.
